(** * Image redaction engine of [scripts/anonymize_pdf.py]

    A shallow embedding of the OCR-driven image redaction code
    ([sample_bg_color], [_fuzzy_match], [_ocr_image], [redact_image]) and
    the properties of it that the specification states.

    Conventions of the embedding.
    - A Python [str] is a [string]; a character is a code point below 256
      (Latin-1), on which [str.lower], [str.strip] and [str.split] are
      modelled exactly ([lower], [strip], [split]).
    - Token indices are [nat]; pixel coordinates and confidences are [Z].
    - The consumption set [used_indices] is a [gset nat].
    - A [dict] is an association list in insertion order without duplicate
      keys: iteration order is observable in the code ([sorted] is stable,
      the single-word pass stops at the first matching item).
    - A PIL image is the raster it was loaded from together with the
      conversions and draw calls applied to it since; reading a pixel is
      left to the parameter [getpixel]. *)

From Stdlib Require Import Ascii String QArith.
From stdpp Require Import gmap strings list sorting.

Local Open Scope string_scope.
Local Open Scope Z_scope.

(** ** Python strings *)

Module Str.

Definition code (c : ascii) : N := N_of_ascii c.

(** [c.isspace()] for a code point below 256. *)
Definition isspace (c : ascii) : bool :=
  let n := code c in
  ((9 <=? n) && (n <=? 13) || (28 <=? n) && (n <=? 32)
   || (n =? 133) || (n =? 160))%N.

(** Upper-case letters below 256: A-Z and the Latin-1 capitals except the
    multiplication sign. *)
Definition isupper (c : ascii) : bool :=
  let n := code c in
  ((65 <=? n) && (n <=? 90)
   || (192 <=? n) && (n <=? 222) && negb (n =? 215))%N.

Definition lower_char (c : ascii) : ascii :=
  if isupper c then ascii_of_N (code c + 32) else c.

(** [s.lower()] *)
Fixpoint lower (s : string) : string :=
  match s with
  | EmptyString => EmptyString
  | String c s' => String (lower_char c) (lower s')
  end.

(** [s.lstrip()] *)
Fixpoint lstrip (s : string) : string :=
  match s with
  | EmptyString => EmptyString
  | String c s' => if isspace c then lstrip s' else s
  end.

(** [s.rstrip()] *)
Fixpoint rstrip (s : string) : string :=
  match s with
  | EmptyString => EmptyString
  | String c s' =>
      match rstrip s' with
      | EmptyString => if isspace c then EmptyString else String c EmptyString
      | r => String c r
      end
  end.

(** [s.strip()] *)
Definition strip (s : string) : string := rstrip (lstrip s).

(** [s.split()]: the maximal runs of non-whitespace characters.  [cur] is
    the word being read, in reverse. *)
Fixpoint split_go (cur : list ascii) (s : string) : list string :=
  let flush :=
    match cur with
    | [] => []
    | _ => [string_of_list_ascii (rev cur)]
    end in
  match s with
  | EmptyString => flush
  | String c s' =>
      if isspace c then flush ++ split_go [] s' else split_go (c :: cur) s'
  end.

Definition split (s : string) : list string := split_go [] s.

(** [" " in s] *)
Fixpoint has_space (s : string) : bool :=
  match s with
  | EmptyString => false
  | String c s' => Ascii.eqb c " "%char || has_space s'
  end.

(** [len(s)] *)
Definition len (s : string) : nat := String.length s.

(** [zip(a, b)] on the characters of two strings. *)
Fixpoint zip (a b : string) : list (ascii * ascii) :=
  match a, b with
  | String x a', String y b' => (x, y) :: zip a' b'
  | _, _ => []
  end.


End Str.

(** ** The fuzzy matcher *)

(** [sum(1 for a, b in zip(x, y) if a == b)] *)
Definition zip_matches (x y : string) : nat :=
  length (filter (fun p => Ascii.eqb (fst p) (snd p) = true) (Str.zip x y)).

(** [_fuzzy_match(ocr_word, target, threshold)].

    [matches / shorter] is a floating-point quotient of two string lengths;
    it is compared with the threshold as the exact rational: 0.75 is a
    binary fraction and correct rounding cannot move a quotient of two
    lengths across it. *)
Definition _fuzzy_match_thr (ocr_word target : string) (threshold : Q) : bool :=
  if (Str.len ocr_word =? 0)%nat then false
  else if (Str.len target =? 0)%nat then false
  else if String.eqb (Str.lower ocr_word) (Str.lower target) then true
  else if (2 <? Z.abs (Z.of_nat (Str.len ocr_word) - Z.of_nat (Str.len target)))%Z
       then false
  else if (Str.len target <=? 3)%nat then false
  else
    let shorter := Nat.min (Str.len ocr_word) (Str.len target) in
    let matches := zip_matches (Str.lower ocr_word) (Str.lower target) in
    Qle_bool threshold
      (inject_Z (Z.of_nat matches) / inject_Z (Z.of_nat shorter)).

(** The default [threshold=0.75], which every caller uses. *)
Definition _fuzzy_match (ocr_word target : string) : bool :=
  _fuzzy_match_thr ocr_word target 0.75%Q.

(** ** Images *)

(** A pixel value as [getpixel] returns it: the tuple of its band values. *)
Definition color := list Z.

(** What has been done to an image since it was loaded. *)
Inductive img_op :=
| Convert (to_mode : string)
| Rectangle (x0 y0 x1 y1 : Z) (fill : color)
| Text (x y : Z) (s : string) (fill : color) (font_size : Z).

Record image := {
  img_mode : string;
  img_width : Z;
  img_height : Z;
  img_raster : list (list color);
  img_history : list img_op
}.

Definition apply_op (img : image) (op : img_op) : image :=
  {| img_mode := match op with Convert m => m | _ => img_mode img end;
     img_width := img_width img;
     img_height := img_height img;
     img_raster := img_raster img;
     img_history := img_history img ++ [op] |}.

(** [img.convert(m)] *)
Definition convert (img : image) (m : string) : image := apply_op img (Convert m).

(** [draw.rectangle([x, y, x2, y2], fill=bg)] *)
Definition draw_rectangle (img : image) (x y x2 y2 : Z) (fill : color) : image :=
  apply_op img (Rectangle x y x2 y2 fill).

(** [draw.text((x, y), s, fill=c, font=get_font(size))] *)
Definition draw_text (img : image) (x y : Z) (s : string) (fill : color)
    (size : Z) : image :=
  apply_op img (Text x y s fill size).

(** ** [collections.Counter] *)

Module Counter.

(** [c[k] += 1]: a new key goes to the end of the iteration order. *)
Fixpoint incr (k : color) (c : list (color * nat)) : list (color * nat) :=
  match c with
  | [] => [(k, 1%nat)]
  | (k', n) :: c' =>
      if decide (k = k') then (k', S n) :: c' else (k', n) :: incr k c'
  end.

(** [Counter(pixels)] *)
Definition of_list (pixels : list color) : list (color * nat) :=
  fold_left (fun c p => incr p c) pixels [].

(** [max(items, key=itemgetter(1))] from [best] on: a later item replaces
    the current one only when its count is strictly larger. *)
Fixpoint max_from (best : color * nat) (items : list (color * nat)) : color * nat :=
  match items with
  | [] => best
  | it :: rest => max_from (if (snd best <? snd it)%nat then it else best) rest
  end.

(** [c.most_common(1)] *)
Definition most_common_1 (c : list (color * nat)) : list (color * nat) :=
  match c with
  | [] => []
  | it :: rest => [max_from it rest]
  end.

End Counter.

(** [Counter(pixels).most_common(1)[0][0]]; [None] is the [IndexError] of
    indexing the empty list. *)
Definition most_common_color (pixels : list color) : option color :=
  match Counter.most_common_1 (Counter.of_list pixels) with
  | [] => None
  | it :: _ => Some (fst it)
  end.

(** ** OCR tokens *)

(** One row of the table [image_to_data] returns; the code holds the table
    by columns, [data["text"][i]], [data["conf"][i]] and so on. *)
Record token := {
  t_text : string;
  t_conf : Z;
  t_left : Z;
  t_top : Z;
  t_width : Z;
  t_height : Z
}.

Definition null_token : token :=
  {| t_text := ""; t_conf := 0; t_left := 0; t_top := 0;
     t_width := 0; t_height := 0 |}.

(** [data[...][i]] for an index inside the table. *)
Definition tok (data : list token) (i : nat) : token :=
  default null_token (data !! i).

Inductive exn :=
| TesseractNotFoundError
| OtherException
| NonException.

(** [isinstance(e, Exception)] *)
Definition is_Exception (e : exn) : bool :=
  match e with
  | NonException => false
  | _ => true
  end.

Inductive outcome (A : Type) :=
| Returns (a : A)
| Raises (e : exn).
Arguments Returns {A} a.
Arguments Raises {A} e.

(** ** Spans and the state of one [redact_image] call *)

Record span := {
  sp_pass : nat;
  sp_first : nat;
  sp_len : nat;
  sp_repl : string;
  sp_rect : Z * Z * Z * Z
}.

Record state := {
  st_img : image;
  st_used : gset nat;
  st_count : nat;
  st_spans : list span
}.

(** The token indices of a span. *)
Definition span_indices (s : span) : list nat := seq (sp_first s) (sp_len s).

(** ** Dictionaries in insertion order *)

Definition dict := list (string * string).

(** [d[k] = v] *)
Fixpoint dict_set (k v : string) (d : dict) : dict :=
  match d with
  | [] => [(k, v)]
  | (k', v') :: d' =>
      if String.eqb k k' then (k', v) :: d' else (k', v') :: dict_set k v d'
  end.

(** [d[k]] for a key of [d]. *)
Definition dict_get (k : string) (d : dict) : string :=
  match find (fun kv => String.eqb k (fst kv)) d with
  | Some kv => snd kv
  | None => ""
  end.

(** [sorted(l, key=len, reverse=True)]: descending length, equal lengths in
    their original order. *)
Fixpoint insert_by_len (x : string) (l : list string) : list string :=
  match l with
  | [] => [x]
  | y :: l' =>
      if (Str.len y <=? Str.len x)%nat then x :: l else y :: insert_by_len x l'
  end.

Definition sorted_by_len_desc (l : list string) : list string :=
  foldr insert_by_len [] l.

(** [min(...)] and [max(...)] of a non-empty sequence. *)
Definition min_of (l : list Z) : Z :=
  match l with
  | [] => 0
  | a :: l' => fold_left Z.min l' a
  end.

Definition max_of (l : list Z) : Z :=
  match l with
  | [] => 0
  | a :: l' => fold_left Z.max l' a
  end.

(** ** The engine *)

Section Engine.

(** [img.getpixel((x, y))].  The coordinates the code reads lie inside the
    image whenever the token boxes do; what PIL does outside is not
    modelled. *)
Variable getpixel : image -> Z -> Z -> color.

(** [pytesseract.image_to_data(scaled, output_type=DICT, config=config)] on
    the twofold LANCZOS enlargement of the image. *)
Variable image_to_data : image -> string -> outcome (list token).

(** The list [pixels] of [sample_bg_color]; [range(a, b)] is
    [seqZ a (b - a)]. *)
Definition sample_pixels (img : image) (x y w h margin : Z) : list color :=
  flat_map
    (fun dx =>
       map (fun dy_val => getpixel img dx dy_val)
         [Z.max 0 (y - margin); Z.min (img_height img - 1) (y + h + margin)])
    (seqZ (Z.max 0 (x - margin))
       (Z.min (img_width img) (x + w + margin) - Z.max 0 (x - margin)))
  ++
  flat_map
    (fun dy =>
       map (fun dx_val => getpixel img dx_val dy)
         [Z.max 0 (x - margin); Z.min (img_width img - 1) (x + w + margin)])
    (seqZ (Z.max 0 (y - margin))
       (Z.min (img_height img) (y + h + margin) - Z.max 0 (y - margin))).

(** [sample_bg_color(img, x, y, w, h, margin)].  The last branch stands for
    the [IndexError] of [most_common(1)[0]]; it is never taken
    ([most_common_color_is_Some]). *)
Definition sample_bg_color_margin (img : image) (x y w h margin : Z) : color :=
  let pixels := sample_pixels img x y w h margin in
  match pixels with
  | [] => [255; 255; 255]
  | _ =>
      match most_common_color pixels with
      | Some c => c
      | None => []
      end
  end.

(** The default [margin=4], which every caller uses. *)
Definition sample_bg_color (img : image) (x y w h : Z) : color :=
  sample_bg_color_margin img x y w h 4.

(** [sum(1 for i, w in enumerate(data["text"])
         if w.strip() and data["conf"][i] > 0)] *)
Definition word_count (data : list token) : nat :=
  length
    (filter (fun t => Str.len (Str.strip (t_text t)) <> 0%nat /\ 0 < t_conf t)
       data).

(** [int(v / scale)] for [scale = 2.0]. *)
Definition unscale (v : Z) : Z := Z.quot v 2.

Definition unscale_token (t : token) : token :=
  {| t_text := t_text t; t_conf := t_conf t;
     t_left := unscale (t_left t); t_top := unscale (t_top t);
     t_width := unscale (t_width t); t_height := unscale (t_height t) |}.

(** One turn of [for config in configs] in [_ocr_image]. *)
Definition ocr_try (img : image)
    (acc : outcome (option (list token) * nat)) (config : string)
    : outcome (option (list token) * nat) :=
  match acc with
  | Raises e => Raises e
  | Returns (best_data, best_words) =>
      match image_to_data img config with
      | Returns data =>
          let wc := word_count data in
          if (best_words <? wc)%nat then Returns (Some data, wc) else acc
      | Raises e => if is_Exception e then acc else Raises e
      end
  end.

(** [_ocr_image(img)] with the default [scale=2.0]. *)
Definition _ocr_image (img : image) : outcome (list token) :=
  match fold_left (ocr_try img) ["--psm 6"; "--psm 11"] (Returns (None, 0%nat)) with
  | Raises e => Raises e
  | Returns (None, _) => Returns []
  | Returns (Some best_data, _) => Returns (map unscale_token best_data)
  end.

(** [lc_map = {k.lower(): v for k, v in name_map.items()}] *)
Definition lc_map_of (name_map : dict) : dict :=
  fold_left (fun d kv => dict_set (Str.lower (fst kv)) (snd kv) d) name_map [].

(** [extra_lc = [s.lower() for s in (extra_redact or [])]] *)
Definition extra_lc_of (extra_redact : option (list string)) : list string :=
  map Str.lower (default [] extra_redact).

(** [sorted_names = sorted(lc_map.keys(), key=len, reverse=True)] *)
Definition sorted_names (lc_map : dict) : list string :=
  sorted_by_len_desc (map fst lc_map).

(** The inner loop [for j, nw in enumerate(name_words)] of passes 1 and 3,
    from position [idx] on; [gate] says whether the pass checks the
    confidence.  All indices read are below [n_boxes]. *)
Fixpoint window_matched (gate : bool) (used : gset nat) (data : list token)
    (idx : nat) (name_words : list string) : bool :=
  match name_words with
  | [] => true
  | nw :: rest =>
      if decide (idx ∈ used) then false
      else if negb (_fuzzy_match (Str.strip (t_text (tok data idx))) nw) then false
      else if gate && (t_conf (tok data idx) <? 0) then false
      else window_matched gate used data (S idx) rest
  end.

(** [(x, y, x2, y2)] of a window of [n] tokens starting at [first]. *)
Definition span_box (data : list token) (first n : nat) : Z * Z * Z * Z :=
  let last := (first + n - 1)%nat in
  let x := t_left (tok data first) in
  let y := min_of (map (fun k => t_top (tok data (first + k))) (seq 0 n)) in
  let x2 := t_left (tok data last) + t_width (tok data last) in
  let y2 :=
    max_of (map (fun k => t_top (tok data (first + k))
                          + t_height (tok data (first + k))) (seq 0 n)) in
  (x, y, x2, y2).

(** [sum(bg[:3]) / 3 if len(bg) >= 3 else 128] *)
Definition brightness (bg : color) : Q :=
  if (3 <=? length bg)%nat
  then inject_Z (fold_left Z.add (take 3 bg) 0) / inject_Z 3
  else inject_Z 128.

(** [(0, 0, 0) if brightness > 128 else (255, 255, 255)] *)
Definition text_color (bg : color) : color :=
  if Qle_bool (brightness bg) (inject_Z 128) then [255; 255; 255] else [0; 0; 0].

(** Painting one match: sample the background, fill the rectangle, and
    draw the label when there is one ([label = None] where the code makes
    no [draw.text] call). *)
Definition paint (img : image) (x y x2 y2 w_box h_box : Z)
    (label : option string) : image :=
  let bg := sample_bg_color img x y w_box h_box in
  let img := draw_rectangle img x y x2 y2 bg in
  match label with
  | Some repl => draw_text img (x + 2) (y + 1) repl (text_color bg) (Z.max 10 (h_box - 4))
  | None => img
  end.

(** One turn of [for i in range(n_boxes - len(words) + 1)] in pass 1
    ([gate = true], [label = Some repl]) and pass 3 ([gate = false],
    [label = None]). *)
Definition window_step (pass : nat) (gate : bool) (label : option string)
    (data : list token) (name_words : list string) (st : state) (i : nat)
    : state :=
  if decide (i ∈ st_used st) then st
  else if negb (window_matched gate (st_used st) data i name_words) then st
  else
    let n := length name_words in
    let '(x, y, x2, y2) := span_box data i n in
    {| st_img := paint (st_img st) x y x2 y2 (x2 - x) (y2 - y) label;
       st_used := st_used st ∪ list_to_set (seq i n);
       st_count := S (st_count st);
       st_spans := st_spans st ++
         [{| sp_pass := pass; sp_first := i; sp_len := n;
             sp_repl := default "" label; sp_rect := (x, y, x2, y2) |}] |}.

(** The scan of one term of two words or more over the token sequence. *)
Definition scan_term (pass : nat) (gate : bool) (label : option string)
    (data : list token) (term : string) (st : state) : state :=
  let name_words := Str.split term in
  if (length name_words <? 2)%nat then st
  else
    fold_left (window_step pass gate label data name_words)
      (seq 0 (length data + 1 - length name_words)) st.

(** First pass: [for name_lc in sorted_names]. *)
Definition pass1 (data : list token) (lc_map : dict) (st : state) : state :=
  fold_left
    (fun st name_lc =>
       scan_term 1 true (Some (dict_get name_lc lc_map)) data name_lc st)
    (sorted_names lc_map) st.

(** The two lookups of the second pass; [None] is Python's [None]. *)
Definition single_match (w_lc : string) (lc_map : dict) (extra_lc : list string)
    : option string :=
  match find (fun kv => negb (Str.has_space (fst kv)) && _fuzzy_match w_lc (fst kv)) lc_map with
  | Some kv => Some (snd kv)
  | None =>
      match find (fun term => negb (Str.has_space term) && _fuzzy_match w_lc term) extra_lc with
      | Some _ => Some ""
      | None => None
      end
  end.

(** One turn of [for i in range(n_boxes)] in the second pass. *)
Definition single_step (data : list token) (lc_map : dict)
    (extra_lc : list string) (st : state) (i : nat) : state :=
  if decide (i ∈ st_used st) then st
  else
    let w := Str.strip (t_text (tok data i)) in
    if (Str.len w =? 0)%nat || (t_conf (tok data i) <? 0) then st
    else
      match single_match (Str.lower w) lc_map extra_lc with
      | None => st
      | Some matched_repl =>
          let x := t_left (tok data i) in
          let y := t_top (tok data i) in
          let bw := t_width (tok data i) in
          let bh := t_height (tok data i) in
          {| st_img :=
               paint (st_img st) x y (x + bw) (y + bh) bw bh
                 (if (Str.len matched_repl =? 0)%nat then None else Some matched_repl);
             st_used := st_used st ∪ {[ i ]};
             st_count := S (st_count st);
             st_spans := st_spans st ++
               [{| sp_pass := 2; sp_first := i; sp_len := 1;
                   sp_repl := matched_repl;
                   sp_rect := (x, y, x + bw, y + bh) |}] |}
      end.

Definition pass2 (data : list token) (lc_map : dict) (extra_lc : list string)
    (st : state) : state :=
  fold_left (single_step data lc_map extra_lc) (seq 0 (length data)) st.

(** Third pass: [for term in extra_lc]. *)
Definition pass3 (data : list token) (extra_lc : list string) (st : state) : state :=
  fold_left (fun st term => scan_term 3 false None data term st) extra_lc st.

(** [if img.mode != "RGB": img = img.convert("RGB")] *)
Definition to_rgb (img : image) : image :=
  if String.eqb (img_mode img) "RGB" then img else convert img "RGB".

(** The three passes on the tokens [data], from no token consumed. *)
Definition run_passes (img : image) (data : list token) (name_map : dict)
    (extra_redact : option (list string)) : state :=
  let lc_map := lc_map_of name_map in
  let extra_lc := extra_lc_of extra_redact in
  let st := {| st_img := img; st_used := ∅; st_count := 0; st_spans := [] |} in
  pass3 data extra_lc (pass2 data lc_map extra_lc (pass1 data lc_map st)).

(** [redact_image] with the spans it matched kept next to its result.  The
    message the [except] branch prints to [stderr] is not modelled. *)
Definition redact_image_state (img : image) (name_map : dict)
    (extra_redact : option (list string)) : outcome state :=
  let img := to_rgb img in
  match _ocr_image img with
  | Raises TesseractNotFoundError =>
      Returns {| st_img := img; st_used := ∅; st_count := 0; st_spans := [] |}
  | Raises e => Raises e
  | Returns data => Returns (run_passes img data name_map extra_redact)
  end.

(** [redact_image(img, name_map, extra_redact)] *)
Definition redact_image (img : image) (name_map : dict)
    (extra_redact : option (list string)) : outcome (image * nat) :=
  match redact_image_state img name_map extra_redact with
  | Returns st => Returns (st_img st, st_count st)
  | Raises e => Raises e
  end.

(** The spans one [redact_image] call matched, in the order it painted
    them; none when the call raises. *)
Definition matched_spans (img : image) (name_map : dict)
    (extra_redact : option (list string)) : list span :=
  match redact_image_state img name_map extra_redact with
  | Returns st => st_spans st
  | Raises _ => []
  end.

End Engine.

(** * The rest of [scripts/anonymize_pdf.py] *)

(** ** Parsing the name map *)

(** [s.split(sep)] for a one-character separator; never empty. *)
Fixpoint split_on (sep : ascii) (s : string) : list string :=
  match s with
  | EmptyString => [EmptyString]
  | String c s' =>
      if Ascii.eqb c sep then EmptyString :: split_on sep s'
      else
        match split_on sep s' with
        | x :: rest => String c x :: rest
        | [] => [String c EmptyString]
        end
  end.

(** [sep.join(l)] *)
Fixpoint join (sep : string) (l : list string) : string :=
  match l with
  | [] => EmptyString
  | [x] => x
  | x :: l' => (x ++ sep ++ join sep l')%string
  end.

(** [pair.split("=", 1)] as the two halves around the first "=";
    [None] when ["=" not in pair]. *)
Fixpoint split_eq (pair : string) : option (string * string) :=
  match pair with
  | EmptyString => None
  | String c s' =>
      if Ascii.eqb c "="%char then Some (EmptyString, s')
      else
        match split_eq s' with
        | Some (a, b) => Some (String c a, b)
        | None => None
        end
  end.

Section NameMap.

(** [str.upper] and [str.title]; both can leave the Latin-1 range, so they
    stay parameters. *)
Variable upper title : string -> string.

(** [list(variants)] for the set built by the given [add] calls: the
    distinct pairs in the iteration order of the set, which depends on the
    string hashes of the run. *)
Variable set_order : list (string * string) -> list (string * string).

(** [_case_variants(orig, repl)] *)
Definition _case_variants (orig repl : string) : list (string * string) :=
  set_order
    [(orig, repl); (Str.lower orig, Str.lower repl);
     (upper orig, upper repl); (title orig, title repl)].

(** One turn of [for pair in map_str.split(",")]. *)
Definition parse_pair (mapping : dict) (pair : string) : dict :=
  match split_eq (Str.strip pair) with
  | None => mapping
  | Some (orig, repl) =>
      let orig := Str.strip orig in
      let repl := Str.strip repl in
      if (Str.len orig =? 0)%nat then mapping
      else
        fold_left (fun m '(o, r) => dict_set o r m)
          (_case_variants orig repl) mapping
  end.

(** [parse_name_map(map_str)] *)
Definition parse_name_map (map_str : string) : dict :=
  fold_left parse_pair (split_on ","%char map_str) [].

End NameMap.

(** ** Text-layer redaction *)

Section TextLayer.

(** [fitz.Rect] *)
Variable Rect : Type.

(** One [page.add_redact_annot(rect, text=..., fontsize=0, fill=(1, 1, 1))]. *)
Record annot := { an_rect : Rect; an_text : string }.

(** What [redact_text_on_page] has done to the page: the annotations
    added, in order, and whether [apply_redactions] was called. *)
Record page_effect := { pe_annots : list annot; pe_applied : bool }.

(** [page.search_for(text)]; the page text does not change before
    [apply_redactions]. *)
Variable search_for : string -> list Rect.

(** [_find_urls(page)] *)
Variable find_urls : list string.

(** [for rect in page.search_for(needle): add_redact_annot(rect,
    text=label); count += 1], on the annotations and [count]. *)
Definition annotate (needle label : string) (acc : list annot * nat)
    : list annot * nat :=
  fold_left
    (fun '(annots, count) rect =>
       ((annots ++ [{| an_rect := rect; an_text := label |}])%list, S count))
    (search_for needle) acc.

(** [redact_text_on_page(page, name_map, extra_redact)]: the effect on the
    page and the count returned. *)
Definition redact_text_on_page (name_map : dict) (extra_redact : list string)
    : page_effect * nat :=
  let acc :=
    fold_left (fun acc orig => annotate orig (dict_get orig name_map) acc)
      (sorted_by_len_desc (map fst name_map)) ([], 0%nat) in
  let acc :=
    fold_left
      (fun acc text =>
         let text := Str.strip text in
         if (Str.len text =? 0)%nat then acc else annotate text "" acc)
      extra_redact acc in
  let '(annots, count) :=
    fold_left (fun acc url => annotate url "[link]" acc) find_urls acc in
  ({| pe_annots := annots; pe_applied := negb (count =? 0)%nat |}, count).

End TextLayer.

Arguments an_rect {Rect} _.
Arguments an_text {Rect} _.
Arguments pe_annots {Rect} _.
Arguments pe_applied {Rect} _.

(** ** Images of a page *)

(** A [fitz.Pixmap], as far as the code looks at it. *)
Record pixmap := { pix_width : Z; pix_height : Z }.

Section PageImages.

Variable getpixel : image -> Z -> Z -> color.
Variable image_to_data : image -> string -> outcome (list token).

(** [fitz.Pixmap(doc, xref)] *)
Variable load_pixmap : nat -> outcome pixmap.

(** The PIL image of a pixmap: the conversion to RGB where needed, the PNG
    bytes and [Image.open].  These calls, like the saving of the modified
    image and [page.replace_image], are taken to succeed. *)
Variable to_pil : pixmap -> image.

(** The state of the loop of [process_page_images]: [total] and the
    [page.replace_image(xref, ...)] calls made, in order. *)
Definition page_state : Type := nat * list (nat * image).

(** One turn of [for img_info in images], on the xref of the image. *)
Definition process_image (name_map : dict) (extra_redact : option (list string))
    (acc : outcome page_state) (xref : nat) : outcome page_state :=
  match acc with
  | Raises e => Raises e
  | Returns (total, replaced) =>
      match load_pixmap xref with
      | Raises e => if is_Exception e then acc else Raises e
      | Returns pix =>
          if (pix_width pix <? 100) || (pix_height pix <? 100) then acc
          else
            match redact_image getpixel image_to_data (to_pil pix) name_map extra_redact with
            | Raises e => Raises e
            | Returns (modified_img, count) =>
                if (count =? 0)%nat then acc
                else Returns ((total + count)%nat, (replaced ++ [(xref, modified_img)])%list)
            end
      end
  end.

(** [process_page_images(doc, page, name_map, extra_redact)] on the xrefs
    [page.get_images(full=True)] lists. *)
Definition process_page_images (images : list nat) (name_map : dict)
    (extra_redact : option (list string)) : outcome page_state :=
  fold_left (process_image name_map extra_redact) images (Returns (0%nat, [])).

End PageImages.

(** * [fix_lookup_csv.py] *)

(** ** Regular expressions *)

Module Re.

Inductive regex :=
| Void
| Eps
| Cls (cs : string)
| Cat (r1 r2 : regex)
| Alt (r1 r2 : regex)
| Star (r : regex).

(** [(r)?] *)
Definition Opt (r : regex) : regex := Alt r Eps.

Fixpoint mem (c : ascii) (cs : string) : bool :=
  match cs with
  | EmptyString => false
  | String c' cs' => Ascii.eqb c c' || mem c cs'
  end.

Fixpoint nullable (r : regex) : bool :=
  match r with
  | Void => false
  | Eps => true
  | Cls _ => false
  | Cat r1 r2 => nullable r1 && nullable r2
  | Alt r1 r2 => nullable r1 || nullable r2
  | Star _ => true
  end.

(** The derivative of [r] by [c]. *)
Fixpoint deriv (c : ascii) (r : regex) : regex :=
  match r with
  | Void => Void
  | Eps => Void
  | Cls cs => if mem c cs then Eps else Void
  | Cat r1 r2 =>
      if nullable r1 then Alt (Cat (deriv c r1) r2) (deriv c r2)
      else Cat (deriv c r1) r2
  | Alt r1 r2 => Alt (deriv c r1) (deriv c r2)
  | Star r1 => Cat (deriv c r1) (Star r1)
  end.

(** [r] matches the whole of [s]. *)
Fixpoint matches (r : regex) (s : string) : bool :=
  match s with
  | EmptyString => nullable r
  | String c s' => matches (deriv c r) s'
  end.

(** [s] without its last character when that is a newline. *)
Fixpoint chomp (s : string) : option string :=
  match s with
  | EmptyString => None
  | String c EmptyString => if Ascii.eqb c "010"%char then Some EmptyString else None
  | String c s' =>
      match chomp s' with
      | Some t => Some (String c t)
      | None => None
      end
  end.

(** [bool(re.compile("^" r "$").match(s))]: [$] is the end of the string or
    the position before a newline that ends it. *)
Definition match_anchored (r : regex) (s : string) : bool :=
  matches r s
  || match chomp s with
     | Some s' => matches r s'
     | None => false
     end.

End Re.

(** [[SHDC][2-9TJQKA]] *)
Definition CARD_RE : Re.regex := Re.Cat (Re.Cls "SHDC") (Re.Cls "23456789TJQKA").

(** [[SHDC][2-9TJQKA]( [SHDC][2-9TJQKA])*] *)
Definition TRICK_RE : Re.regex :=
  Re.Cat CARD_RE (Re.Star (Re.Cat (Re.Cls " ") CARD_RE)).

(** The pattern of [CARDPLAY_RE] between [^] and [$]. *)
Definition CARDPLAY_RE : Re.regex :=
  Re.Opt (Re.Cat TRICK_RE (Re.Star (Re.Cat (Re.Cls "|") TRICK_RE))).

(** [is_cardplay(s)] *)
Definition is_cardplay (s : string) : bool :=
  String.eqb s "" || Re.match_anchored CARDPLAY_RE s.

Definition EXPECTED_COLS : nat := 15.

(** [l[i]] for an index inside [l]. *)
Definition field (l : list string) (i : nat) : string := default "" (l !! i).

Section Csv.

(** [int(s)]; [None] is [ValueError]. *)
Variable py_int : string -> option Z.

(** [is_claim(s)] *)
Definition is_claim (s : string) : bool :=
  if String.eqb s "" then true
  else
    match py_int s with
    | Some n => (0 <=? n) && (n <=? 13)
    | None => false
    end.

(** The scan [for i in range(11, n)] of [reassemble_row]: the first index
    whose field looks like a cardplay and is followed by a claim. *)
Definition cardplay_idx (raw_fields : list string) : option nat :=
  let n := length raw_fields in
  find
    (fun i =>
       is_cardplay (field raw_fields i)
       && ((i + 1 <? n)%nat && is_claim (field raw_fields (i + 1))))
    (seq 11 (n - 11)).

(** [reassemble_row(raw_fields)] *)
Definition reassemble_row (raw_fields : list string) : list string :=
  let n := length raw_fields in
  if (n =? EXPECTED_COLS)%nat then raw_fields
  else if (n <? EXPECTED_COLS)%nat
  then raw_fields ++ replicate (EXPECTED_COLS - n) ""
  else
    let head := take 11 raw_fields in
    match cardplay_idx raw_fields with
    | None => head ++ [join "," (drop 11 raw_fields); ""; ""; ""]
    | Some idx =>
        let explanations := join "," (take (idx - 11) (drop 11 raw_fields)) in
        let cardplay := field raw_fields idx in
        let claim := if (idx + 1 <? n)%nat then field raw_fields (idx + 1) else "" in
        let lin_url :=
          if (idx + 2 <? n)%nat then join "," (drop (idx + 2) raw_fields) else "" in
        head ++ [explanations; cardplay; claim; lin_url]
    end.

(** One turn of [for line in lines[1:]] of [fix_lookup_csv], on
    [(output_rows, rows_total, rows_fixed)]. *)
Definition fix_line (acc : list (list string) * nat * nat) (line : string)
    : list (list string) * nat * nat :=
  let '(output_rows, rows_total, rows_fixed) := acc in
  if (Str.len (Str.strip line) =? 0)%nat then acc
  else
    let raw := split_on ","%char line in
    ((output_rows ++ [reassemble_row raw])%list, S rows_total,
     if (length raw =? EXPECTED_COLS)%nat then rows_fixed else S rows_fixed).

(** The rows [fix_lookup_csv] writes and the two numbers it reports, from
    the lines of the file; [None] when the file has no line and nothing is
    written. *)
Definition fix_rows (lines : list string) : option (list (list string) * nat * nat) :=
  match lines with
  | [] => None
  | header_line :: rest =>
      Some (fold_left fix_line rest ([split_on ","%char header_line], 0%nat, 0%nat))
  end.

End Csv.

(** * Vocabulary of the properties *)



(** How often [c] occurs in [ps], and where it occurs first. *)
Definition count_of (c : color) (ps : list color) : nat :=
  length (filter (fun p => p = c) ps).

Fixpoint first_pos (c : color) (ps : list color) : nat :=
  match ps with
  | [] => 0
  | p :: ps' => if decide (p = c) then 0 else S (first_pos c ps')
  end.

(** What a recorded span must satisfy, by the pass that matched it. *)
Definition span_ok (data : list token) (s : span) : Prop :=
  (sp_first s + sp_len s <= length data)%nat
  /\ match sp_pass s with
     | 1%nat =>
         (2 <= sp_len s)%nat
         /\ sp_rect s = span_box data (sp_first s) (sp_len s)
         /\ forall k, k ∈ span_indices s -> 0 <= t_conf (tok data k)
     | 2%nat =>
         sp_len s = 1%nat
         /\ sp_rect s =
              (t_left (tok data (sp_first s)), t_top (tok data (sp_first s)),
               t_left (tok data (sp_first s)) + t_width (tok data (sp_first s)),
               t_top (tok data (sp_first s)) + t_height (tok data (sp_first s)))
         /\ 0 <= t_conf (tok data (sp_first s))
     | 3%nat =>
         (2 <= sp_len s)%nat
         /\ sp_rect s = span_box data (sp_first s) (sp_len s)
     | _ => False
     end.

(** The rectangle of a span has been filled on the image. *)
Definition span_painted (img : image) (s : span) : Prop :=
  exists x y x2 y2 bg,
    sp_rect s = (x, y, x2, y2) /\ (Rectangle x y x2 y2 bg ∈ img_history img).

(** The number of spans that contain token [k]. *)
Definition covering (k : nat) (spans : list span) : nat :=
  length (filter (fun s => k ∈ span_indices s) spans).

(** What holds of the state between two turns of any of the loops of
    [redact_image]. *)
Record pass_inv (data : list token) (st : state) : Prop := {
  inv_used : forall s k, s ∈ st_spans st -> k ∈ span_indices s -> k ∈ st_used st;
  inv_once : forall k, (covering k (st_spans st) <= 1)%nat;
  inv_ok : Forall (span_ok data) (st_spans st);
  inv_count : st_count st = length (st_spans st);
  inv_painted : Forall (span_painted (st_img st)) (st_spans st)
}.





(** A window of tokens spells the words of a term (and, where [gate] is
    set, every token in it has a non-negative confidence). *)
Definition window_hit (gate : bool) (data : list token) (i : nat)
    (words : list string) : Prop :=
  forall j word, words !! j = Some word ->
    _fuzzy_match (Str.strip (t_text (tok data (i + j)))) word = true
    /\ (gate = true -> 0 <= t_conf (tok data (i + j))).

(** Token [i] is a non-empty, non-negative-confidence match of one of the
    single-word [terms]. *)
Definition single_hit (data : list token) (terms : list string) (i : nat) : Prop :=
  let w := Str.strip (t_text (tok data i)) in
  w <> ""
  /\ 0 <= t_conf (tok data i)
  /\ exists term,
       term ∈ terms /\ Str.has_space term = false
       /\ _fuzzy_match (Str.lower w) term = true.

(** No token of [data] matches any term in any of the three passes. *)
Definition no_token_matches (data : list token) (lc_map : dict)
    (extra_lc : list string) : Prop :=
  (forall name i,
     name ∈ lc_map.*1 ->
     (2 <= length (Str.split name))%nat ->
     (i + length (Str.split name) <= length data)%nat ->
     ~ window_hit true data i (Str.split name))
  /\ (forall i, (i < length data)%nat ->
        ~ single_hit data (lc_map.*1 ++ extra_lc) i)
  /\ (forall term i,
        term ∈ extra_lc ->
        (2 <= length (Str.split term))%nat ->
        (i + length (Str.split term) <= length data)%nat ->
        ~ window_hit false data i (Str.split term)).

(** The terms of two words or more, in the order the first pass scans
    them. *)
Definition scan_order (lc_map : dict) : list string :=
  filter (fun name => (2 <= length (Str.split name))%nat) (sorted_names lc_map).

(** [a] comes before [b] in [l]. *)
Definition before {A} (a b : A) (l : list A) : Prop :=
  exists i j, l !! i = Some a /\ l !! j = Some b /\ (i < j)%nat.

(** Descending length. *)
Definition longer_first (a b : string) : Prop := (Str.len b <= Str.len a)%nat.

(** ** Vocabulary for [fix_lookup_csv.py] *)

(** The language of a regular expression. *)
Inductive re_lang : Re.regex -> string -> Prop :=
| lang_eps : re_lang Re.Eps ""
| lang_cls cs c : Re.mem c cs = true -> re_lang (Re.Cls cs) (String c "")
| lang_cat r1 r2 s1 s2 :
    re_lang r1 s1 -> re_lang r2 s2 -> re_lang (Re.Cat r1 r2) (s1 ++ s2)
| lang_alt_l r1 r2 s : re_lang r1 s -> re_lang (Re.Alt r1 r2) s
| lang_alt_r r1 r2 s : re_lang r2 s -> re_lang (Re.Alt r1 r2) s
| lang_star_nil r : re_lang (Re.Star r) ""
| lang_star_app r s1 s2 :
    re_lang r s1 -> re_lang (Re.Star r) s2 -> re_lang (Re.Star r) (s1 ++ s2).

(** A card: a suit letter and a rank character. *)
Definition is_card (s : string) : Prop :=
  exists suit rank,
    Re.mem suit "SHDC" = true /\ Re.mem rank "23456789TJQKA" = true
    /\ s = String suit (String rank "").

(** A trick: cards separated by single spaces. *)
Definition is_trick (s : string) : Prop :=
  exists cards, cards <> [] /\ Forall is_card cards /\ s = join " " cards.

(** A play: tricks separated by bars, or nothing. *)
Definition is_play (s : string) : Prop :=
  exists tricks, Forall is_trick tricks /\ s = join "|" tricks.

(** The characters of a string. *)
Fixpoint chars (s : string) : list ascii :=
  match s with
  | EmptyString => []
  | String c s' => c :: chars s'
  end.

(** The characters a regular expression mentions. *)
Fixpoint alphabet (r : Re.regex) : list ascii :=
  match r with
  | Re.Void | Re.Eps => []
  | Re.Cls cs => chars cs
  | Re.Cat r1 r2 | Re.Alt r1 r2 => (alphabet r1 ++ alphabet r2)%list
  | Re.Star r1 => alphabet r1
  end.

(** A line that is not blank. *)
Definition nonblank (line : string) : Prop := Str.len (Str.strip line) <> 0%nat.

(** ** Vocabulary for the remaining properties of [anonymize_pdf.py] *)


(** [isinstance(op, Rectangle)], for counting the filled boxes. *)
Definition is_rectangle (op : img_op) : bool :=
  match op with
  | Rectangle _ _ _ _ _ => true
  | _ => false
  end.

(** Token [k] lies in one of the spans. *)
Definition covered (k : nat) (spans : list span) : Prop :=
  exists s, s ∈ spans /\ k ∈ span_indices s.


(** What the draw calls of one [redact_image] call may be. *)
Definition draw_ok (name_map : dict) (spans : list span) (op : img_op) : Prop :=
  match op with
  | Convert _ => False
  | Rectangle x y x2 y2 _ => exists s, s ∈ spans /\ sp_rect s = (x, y, x2, y2)
  | Text _ _ s fill _ =>
      s ∈ name_map.*2 /\ (fill = [0; 0; 0] \/ fill = [255; 255; 255])
  end.

(** The state of the image and of the count between two turns of the
    loops of [redact_image], for the image [img0] the passes start from. *)
Record img_inv (name_map : dict) (img0 : image) (st : state) : Prop := {
  ii_mode : img_mode (st_img st) = img_mode img0;
  ii_width : img_width (st_img st) = img_width img0;
  ii_height : img_height (st_img st) = img_height img0;
  ii_raster : img_raster (st_img st) = img_raster img0;
  ii_history : exists ops,
    img_history (st_img st) = (img_history img0 ++ ops)%list
    /\ length (filter (fun op => is_rectangle op = true) ops) = st_count st
    /\ Forall (draw_ok name_map (st_spans st)) ops
}.

(** The consumption set is what the spans cover, token for token. *)
Record use_inv (st : state) : Prop := {
  ui_covered : forall k, k ∈ st_used st <-> covered k (st_spans st);
  ui_size : sum_list_with sp_len (st_spans st) = size (st_used st)
}.

(** The spans recorded so far come from passes up to [p], in pass order. *)
Definition phase_inv (p : nat) (st : state) : Prop :=
  Forall (fun s => (1 <= sp_pass s <= p)%nat) (st_spans st)
  /\ StronglySorted (fun a b => (sp_pass a <= sp_pass b)%nat) (st_spans st).

(** The entry a comma-separated piece of the map string stands for, when
    it has an "=" and a name before it. *)
Definition name_entry (pair : string) : option (string * string) :=
  match split_eq (Str.strip pair) with
  | Some (orig, repl) =>
      if (Str.len (Str.strip orig) =? 0)%nat then None
      else Some (Str.strip orig, Str.strip repl)
  | None => None
  end.

Definition name_entries (map_str : string) : list (string * string) :=
  omap name_entry (split_on ","%char map_str).

(** The four case variants of an entry. *)
Definition case_variants_of (upper title : string -> string)
    (orig repl : string) : list (string * string) :=
  [(orig, repl); (Str.lower orig, Str.lower repl);
   (upper orig, upper repl); (title orig, title repl)].

(** The count [redact_image] returns on the image of [xref], 0 when the
    image cannot be loaded. *)
Definition image_count (getpixel : image -> Z -> Z -> color)
    (image_to_data : image -> string -> outcome (list token))
    (load_pixmap : nat -> outcome pixmap) (to_pil : pixmap -> image)
    (name_map : dict) (extra_redact : option (list string)) (xref : nat) : nat :=
  match load_pixmap xref with
  | Returns pix =>
      match redact_image getpixel image_to_data (to_pil pix) name_map extra_redact with
      | Returns (_, n) => n
      | Raises _ => 0%nat
      end
  | Raises _ => 0%nat
  end.

(** What holds of an image [process_page_images] has replaced. *)
Definition replaced_ok (getpixel : image -> Z -> Z -> color)
    (image_to_data : image -> string -> outcome (list token))
    (load_pixmap : nat -> outcome pixmap) (to_pil : pixmap -> image)
    (images : list nat) (name_map : dict) (extra_redact : option (list string))
    (r : nat * image) : Prop :=
  r.1 ∈ images
  /\ exists pix n,
       load_pixmap r.1 = Returns pix
       /\ 100 <= pix_width pix /\ 100 <= pix_height pix
       /\ redact_image getpixel image_to_data (to_pil pix) name_map extra_redact
          = Returns (r.2, n)
       /\ (0 < n)%nat.

(** The labels an annotation of the text layer can carry. *)
Definition label_ok (Rect : Type) (name_map : dict) (a : annot Rect) : Prop :=
  an_text a ∈ name_map.*2 \/ an_text a = "" \/ an_text a = "[link]".

(** * Sample inputs *)

Definition mk_token (s : string) (c l t w h : Z) : token :=
  {| t_text := s; t_conf := c; t_left := l; t_top := t;
     t_width := w; t_height := h |}.

(** An engine that reads [rows] in the dense-block mode and fails in the
    sparse mode. *)
Definition engine_of (rows : list token) (img : image) (config : string)
    : outcome (list token) :=
  if String.eqb config "--psm 6" then Returns rows else Raises OtherException.

(** A uniformly white raster. *)
Definition white_pixel (img : image) (x y : Z) : color := [255; 255; 255].

(** "Alan" at the end of one line and "Williams" at the start of the next,
    as the engine reports them on the enlarged image. *)
Definition wrapped_name_rows : list token :=
  [mk_token "Alan" 90 200 0 80 20; mk_token "Williams" 88 0 24 300 20].

Definition alan_map : dict :=
  [("Alan Williams", "Bob Williams"); ("Williams", "X")].

(** A reliable word followed by an address the engine is unsure of. *)
Definition address_rows : list token :=
  [mk_token "Page" 91 10 10 60 20; mk_token "3273" (-1) 10 60 80 20;
   mk_token "Streamside" (-1) 100 60 200 20].

(** An engine whose backing binary is missing. *)
Definition engine_missing (img : image) (config : string) : outcome (list token) :=
  Raises TesseractNotFoundError.

(** A three-word term that is shorter, in characters, than a two-word
    term it shares a word with. *)
Definition initials_map : dict := [("a b c", "X"); ("c wwwww", "Y")].

Definition initials_rows : list token :=
  [mk_token "a" 90 0 0 20 20; mk_token "b" 90 30 0 20 20;
   mk_token "c" 90 60 0 20 20; mk_token "wwwww" 90 90 0 100 20].

Definition white_image : image :=
  {| img_mode := "RGB"; img_width := 200; img_height := 100;
     img_raster := []; img_history := [] |}.


(** The wrapped name followed by a word that is on the extra-redact list. *)
Definition page_rows : list token :=
  wrapped_name_rows ++ [mk_token "Page" 70 0 60 80 20].

Definition page_span : span :=
  {| sp_pass := 2; sp_first := 2; sp_len := 1; sp_repl := "";
     sp_rect := (0, 30, 40, 40) |}.

Definition wrapped_name_span : span :=
  {| sp_pass := 1; sp_first := 0; sp_len := 2; sp_repl := "Bob Williams";
     sp_rect := (100, 0, 150, 22) |}.

Definition address_span : span :=
  {| sp_pass := 3; sp_first := 1; sp_len := 2; sp_repl := "";
     sp_rect := (5, 30, 150, 40) |}.

(** An [int] that reads plain decimal digits. *)
Fixpoint digits_value (acc : Z) (s : string) : option Z :=
  match s with
  | EmptyString => Some acc
  | String c s' =>
      let n := Z.of_N (N_of_ascii c) in
      if (48 <=? n) && (n <=? 57) then digits_value (10 * acc + (n - 48)) s'
      else None
  end.

Definition digits_int (s : string) : option Z :=
  if String.eqb s "" then None else digits_value 0 s.

(** A row whose explanations and URL hold commas: 18 pieces. *)
Definition broken_line : string :=
  "7,N,E,S,W,1,2,3,4,5,1H P 2H,a,b,c,S4 H3 DA CK|D2,9,http://t/x?a=1,b".


(** The white image after the redaction of [page_rows]. *)
Definition page_output : image :=
  {| img_mode := "RGB"; img_width := 200; img_height := 100;
     img_raster := [];
     img_history :=
       [Rectangle 100 0 150 22 [255; 255; 255];
        Text 102 1 "Bob Williams" [0; 0; 0] 18;
        Rectangle 0 30 40 40 [255; 255; 255]] |}.

(** A page whose images all load as one 200 by 100 pixmap. *)
Definition load_wide (xref : nat) : outcome pixmap :=
  Returns {| pix_width := 200; pix_height := 100 |}.

Definition white_of_pixmap (pix : pixmap) : image := white_image.

(** [str.upper] on the letters a to z. *)
Definition upper_char (c : ascii) : ascii :=
  let n := N_of_ascii c in
  if ((97 <=? n) && (n <=? 122))%N then ascii_of_N (n - 32) else c.

Fixpoint ascii_upper (s : string) : string :=
  match s with
  | EmptyString => EmptyString
  | String c s' => String (upper_char c) (ascii_upper s')
  end.

(** A page with one occurrence of every needle. *)
Definition one_hit (needle : string) : list nat := [0%nat].

(** * Properties *)

(** ** The fuzzy matcher *)

Section FuzzyMatch.


Lemma len_0_empty s : Str.len s = 0%nat <-> s = "".
Proof. destruct s; simpl; split; congruence. Qed.

(** The first three tests of [_fuzzy_match]. *)
Lemma fuzzy_match_exact o t :
  o <> "" -> t <> "" -> Str.lower o = Str.lower t -> _fuzzy_match o t = true.
Proof.
  intros Ho Ht Heq. unfold _fuzzy_match, _fuzzy_match_thr.
  destruct (Nat.eqb_spec (Str.len o) 0) as [E|_]; [by apply len_0_empty in E|].
  destruct (Nat.eqb_spec (Str.len t) 0) as [E|_]; [by apply len_0_empty in E|].
  rewrite Heq, String.eqb_refl. done.
Qed.

Lemma fuzzy_match_empty_l t : _fuzzy_match "" t = false.
Proof. reflexivity. Qed.

Lemma fuzzy_match_empty_r o : _fuzzy_match o "" = false.
Proof. unfold _fuzzy_match, _fuzzy_match_thr. by destruct (Str.len o =? 0)%nat. Qed.

Lemma fuzzy_match_short o t :
  (Str.len t <= 3)%nat -> Str.lower o <> Str.lower t -> _fuzzy_match o t = false.
Proof.
  intros Hlen Hne. unfold _fuzzy_match, _fuzzy_match_thr.
  destruct (Str.len o =? 0)%nat; [done|].
  destruct (Str.len t =? 0)%nat; [done|].
  destruct (String.eqb_spec (Str.lower o) (Str.lower t)) as [E|_]; [done|].
  destruct (2 <? _); [done|].
  by destruct (Nat.leb_spec (Str.len t) 3); [|lia].
Qed.




(** C5 (as amended): for a target of at most three characters,
    [_fuzzy_match(o, t)] is true exactly when [o] and [t] are non-empty and
    equal case-insensitively; anything else, a one-character substitution
    included, is rejected. *)
Theorem fuzzy_match_short_target_iff (o t : string) :
  (Str.len t <= 3)%nat ->
  (_fuzzy_match o t = true <->
   o <> "" /\ t <> "" /\ Str.lower o = Str.lower t)
  /\ (Str.lower o <> Str.lower t -> _fuzzy_match o t = false).
Proof.
  intros Hlen. split; [|by apply fuzzy_match_short]. split.
  - intros Hm. destruct (decide (Str.lower o = Str.lower t)) as [E|N].
    + repeat split; [| |done]; intros ->.
      * by rewrite fuzzy_match_empty_l in Hm.
      * by rewrite fuzzy_match_empty_r in Hm.
    + by rewrite fuzzy_match_short in Hm.
  - intros (Ho & Ht & E). by apply fuzzy_match_exact.
Qed.

Lemma fuzzy_match_short_target_iff_witness :
  (_fuzzy_match "Of" "oF" = true <->
   "Of" <> "" /\ "oF" <> "" /\ Str.lower "Of" = Str.lower "oF")
  /\ (Str.lower "Of" <> Str.lower "oF" -> _fuzzy_match "Of" "oF" = false).
Proof. apply (fuzzy_match_short_target_iff "Of" "oF"). simpl. lia. Defined.

(** C5 (as stated) fails on the empty strings: they are equal, the target
    is no longer than three characters, and the matcher rejects them. *)
Lemma fuzzy_match_empty_strings_rejected :
  (Str.len "" <= 3)%nat
  /\ ~ (_fuzzy_match "" "" = true <-> Str.lower "" = Str.lower "").
Proof.
  split; [simpl; lia|]. intros [_ H]. specialize (H eq_refl). discriminate H.
Qed.



End FuzzyMatch.

(** ** Background sampling *)

Section CounterFacts.

Implicit Types (c k p : color) (ps keys : list color).

Lemma count_of_snoc c ps p :
  count_of c (ps ++ [p]) = (count_of c ps + if decide (p = c) then 1 else 0)%nat.
Proof.
  unfold count_of. rewrite filter_app, length_app, filter_cons, filter_nil.
  by destruct (decide (p = c)).
Qed.

Lemma count_of_pos c ps : c ∈ ps <-> (0 < count_of c ps)%nat.
Proof.
  unfold count_of. induction ps as [|p ps IH]; [split; [by intros ?%elem_of_nil|simpl; lia]|].
  rewrite filter_cons, elem_of_cons.
  destruct (decide (p = c)) as [E|N]; simpl; [split; [lia|auto]|].
  rewrite <- IH. split; [intros [E|H]; [congruence|done]|auto].
Qed.

Lemma first_pos_lt c ps : c ∈ ps -> (first_pos c ps < length ps)%nat.
Proof.
  induction ps as [|p ps IH]; [by intros ?%elem_of_nil|]. simpl.
  destruct (decide (p = c)); [lia|]. rewrite elem_of_cons.
  intros [->|H]; [done|]. specialize (IH H). lia.
Qed.

Lemma first_pos_app_l c ps qs : c ∈ ps -> first_pos c (ps ++ qs) = first_pos c ps.
Proof.
  induction ps as [|p ps IH]; [by intros ?%elem_of_nil|]. simpl.
  destruct (decide (p = c)); [done|]. rewrite elem_of_cons.
  intros [->|H]; [done|]. by rewrite IH.
Qed.

Lemma first_pos_fresh c ps qs :
  c ∉ ps -> first_pos c (ps ++ c :: qs) = length ps.
Proof.
  induction ps as [|p ps IH]; simpl.
  - by rewrite decide_True.
  - rewrite not_elem_of_cons. intros [N H].
    rewrite decide_False by done. by rewrite IH.
Qed.

(** One more occurrence of [k] in a counter that holds the counts of [ps]. *)
Lemma incr_counts k ps keys :
  NoDup keys ->
  (k ∉ keys -> count_of k ps = 0%nat) ->
  Counter.incr k ((fun c => (c, count_of c ps)) <$> keys) =
  (fun c => (c, count_of c (ps ++ [k])))
    <$> (if decide (k ∈ keys) then keys else (keys ++ [k])%list).
Proof.
  intros Hnd Hnew. induction keys as [|c keys IH].
  - rewrite decide_False by apply not_elem_of_nil. simpl.
    rewrite count_of_snoc, Hnew by apply not_elem_of_nil.
    by rewrite decide_True.
  - apply NoDup_cons in Hnd as [Hc Hnd].
    cbn [fmap list_fmap Counter.incr]. destruct (decide (k = c)) as [->|N].
    + rewrite decide_True by left. cbn [fmap list_fmap].
      rewrite count_of_snoc, decide_True, Nat.add_1_r by done. f_equal.
      apply list_fmap_ext. intros _ c' Hc'%list_elem_of_lookup_2. f_equal.
      rewrite count_of_snoc, decide_False; [lia|]. by intros ->.
    + fold (@fmap list _ _ _ (fun c => (c, count_of c ps)) keys).
      rewrite IH; [|done|].
      2:{ intros H. apply Hnew. rewrite not_elem_of_cons. done. }
      destruct (decide (k ∈ keys)) as [Hin|Hin].
      * rewrite decide_True by by right. cbn [fmap list_fmap].
        by rewrite (count_of_snoc c), decide_False, Nat.add_0_r.
      * rewrite decide_False by (rewrite not_elem_of_cons; done).
        cbn [app fmap list_fmap].
        by rewrite (count_of_snoc c), decide_False, Nat.add_0_r.
Qed.

Lemma of_list_snoc ps p :
  Counter.of_list (ps ++ [p]) = Counter.incr p (Counter.of_list ps).
Proof. unfold Counter.of_list. by rewrite fold_left_app. Qed.

Lemma StronglySorted_weaken {A} (R R' : relation A) (l : list A) :
  (forall a b, a ∈ l -> b ∈ l -> R a b -> R' a b) ->
  StronglySorted R l -> StronglySorted R' l.
Proof.
  intros HR Hs. induction Hs as [|a l Hs IH Hall]; constructor.
  - apply IH. intros x y Hx Hy. apply HR; by right.
  - rewrite Forall_forall in *. intros b Hb. apply HR; [left|by right|auto].
Qed.

(** [Counter(ps)] lists the distinct colours of [ps] in the order of their
    first occurrence, each with the number of its occurrences. *)
Lemma of_list_shape ps :
  exists keys,
    Counter.of_list ps = (fun c => (c, count_of c ps)) <$> keys
    /\ NoDup keys
    /\ (forall c, c ∈ keys <-> c ∈ ps)
    /\ StronglySorted (fun a b => (first_pos a ps < first_pos b ps)%nat) keys.
Proof.
  induction ps as [|p ps (keys & Heq & Hnd & Hin & Hs)] using rev_ind.
  - exists []. split_and!; try done; constructor.
  - rewrite of_list_snoc, Heq, incr_counts; [|done|].
    2:{ intros H. rewrite Hin, count_of_pos in H. lia. }
    eexists. split; [done|].
    assert (Hmono : StronglySorted
              (fun a b => (first_pos a (ps ++ [p]) < first_pos b (ps ++ [p]))%nat) keys).
    { eapply StronglySorted_weaken; [|exact Hs]. cbn beta.
      intros a b Ha%Hin Hb%Hin. by rewrite !first_pos_app_l. }
    destruct (decide (p ∈ keys)) as [Hp|Hp].
    + split_and!; [done| |done].
      intros c. rewrite Hin, elem_of_app, list_elem_of_singleton.
      split; [auto|]. intros [H| ->]; [done|]. by apply Hin.
    + split_and!.
      * apply NoDup_app. split_and!; [done| |apply NoDup_singleton].
        intros c Hc ->%list_elem_of_singleton. done.
      * intros c. rewrite !elem_of_app, Hin. done.
      * apply StronglySorted_app_2; [|done|repeat constructor].
        intros a b Ha ->%list_elem_of_singleton.
        rewrite first_pos_fresh by (by rewrite <- Hin).
        rewrite first_pos_app_l by (by apply Hin).
        apply first_pos_lt. by apply Hin.
Qed.

(** [max] keeps the first item whose count is the largest. *)
Lemma max_from_first_max (pre mid items : list (color * nat)) best :
  Forall (fun it => (snd it < snd best)%nat) pre ->
  Forall (fun it => (snd it <= snd best)%nat) mid ->
  let r := Counter.max_from best items in
  exists l1 l2,
    (pre ++ best :: mid ++ items = l1 ++ r :: l2)%list
    /\ Forall (fun it => (snd it < snd r)%nat) l1
    /\ Forall (fun it => (snd it <= snd r)%nat) l2.
Proof.
  revert pre mid best. induction items as [|it items IH]; intros pre mid best Hpre Hmid.
  - exists pre, mid. by rewrite app_nil_r.
  - cbn [Counter.max_from]. destruct (Nat.ltb_spec (snd best) (snd it)) as [Hlt|Hge].
    + destruct (IH (pre ++ best :: mid)%list [] it) as (l1 & l2 & E & H1 & H2).
      * rewrite Forall_app, Forall_cons. repeat split; [|done|].
        -- eapply Forall_impl; [exact Hpre|]. intros; simpl in *; lia.
        -- eapply Forall_impl; [exact Hmid|]. intros; simpl in *; lia.
      * constructor.
      * exists l1, l2. split; [|done]. rewrite <- E. by rewrite <- !app_assoc.
    + destruct (IH pre (mid ++ [it])%list best) as (l1 & l2 & E & H1 & H2).
      * done.
      * rewrite Forall_app, Forall_singleton. done.
      * exists l1, l2. split; [|done]. rewrite <- E. by rewrite <- !app_assoc.
Qed.

Lemma most_common_color_nil : most_common_color [] = None.
Proof. reflexivity. Qed.

(** The most common colour of a non-empty sample: no colour occurs more
    often, and none that occurs as often occurs first. *)
Lemma most_common_color_spec ps :
  ps <> [] ->
  exists c,
    most_common_color ps = Some c
    /\ c ∈ ps
    /\ forall c', c' ∈ ps ->
         (count_of c' ps <= count_of c ps)%nat
         /\ (count_of c' ps = count_of c ps ->
             (first_pos c ps <= first_pos c' ps)%nat).
Proof.
  intros Hne. destruct (of_list_shape ps) as (keys & Heq & Hnd & Hin & Hs).
  unfold most_common_color. rewrite Heq.
  destruct keys as [|k keys].
  { destruct ps as [|p ps]; [done|]. exfalso.
    eapply not_elem_of_nil, Hin. left. }
  cbn [fmap list_fmap Counter.most_common_1].
  destruct (max_from_first_max [] []
              ((fun c => (c, count_of c ps)) <$> keys) (k, count_of k ps))
    as (l1 & l2 & E & H1 & H2); [constructor..|].
  cbn [app] in E.
  remember (Counter.max_from _ _) as r eqn:Hr. clear Hr.
  change ((k, count_of k ps) :: ((fun c => (c, count_of c ps)) <$> keys))
    with ((fun c => (c, count_of c ps)) <$> (k :: keys)) in E.
  apply fmap_app_inv in E as (k1 & k2' & -> & E2 & Hk).
  destruct k2' as [|c k2]; [done|]. cbn [fmap list_fmap] in E2.
  injection E2 as -> ->. cbn [fst snd] in *.
  exists c. split; [done|]. split; [apply Hin; rewrite Hk, elem_of_app; right; left|].
  intros c' Hc'. apply Hin in Hc'. rewrite Hk in Hc', Hs.
  rewrite Forall_fmap in H1, H2. rewrite Forall_forall in H1, H2.
  apply elem_of_app in Hc' as [Hc'|Hc'].
  - specialize (H1 _ Hc'). simpl in H1. lia.
  - apply elem_of_cons in Hc' as [->|Hc']; [lia|].
    split; [by apply (H2 _ Hc')|]. intros _.
    apply StronglySorted_app_1_r, StronglySorted_cons in Hs as [Hs _].
    rewrite Forall_forall in Hs. specialize (Hs _ Hc'). simpl in Hs. lia.
Qed.

Lemma most_common_color_is_Some ps : ps <> [] -> is_Some (most_common_color ps).
Proof. intros (c & -> & _)%most_common_color_spec. by eexists. Qed.

End CounterFacts.

Section Sampling.

Variable getpixel : image -> Z -> Z -> color.




End Sampling.


(** ** The three passes *)

Section Passes.

Variable getpixel : image -> Z -> Z -> color.

Lemma fold_left_invariant {A B} (P : A -> Prop) (f : A -> B -> A) (l : list B) (a : A) :
  P a -> (forall a x, x ∈ l -> P a -> P (f a x)) -> P (fold_left f l a).
Proof.
  revert a. induction l as [|x l IH]; intros a Ha Hf; [done|]. simpl.
  apply IH; [apply Hf; [left|done]|]. intros a' y Hy. apply Hf. by right.
Qed.

(** The window test, read off its loop. *)
Lemma window_matched_true gate used data i words :
  window_matched gate used data i words = true <->
  forall j word, words !! j = Some word ->
    ((i + j)%nat ∉ used)
    /\ _fuzzy_match (Str.strip (t_text (tok data (i + j)))) word = true
    /\ (gate = true -> 0 <= t_conf (tok data (i + j))).
Proof.
  revert i. induction words as [|nw rest IH]; intros i.
  - split; [intros _ j word H; by rewrite lookup_nil in H|done].
  - cbn [window_matched]. split.
    + destruct (decide (i ∈ used)) as [|Hu]; [done|].
      destruct (_fuzzy_match _ nw) eqn:Hm; [|done]. cbn [negb].
      destruct (gate && (t_conf (tok data i) <? 0)) eqn:Hg; [done|].
      intros Hrest [|j] word Hw.
      * injection Hw as <-. rewrite Nat.add_0_r. split_and!; [done..|].
        intros ->. simpl in Hg. lia.
      * rewrite <- Nat.add_succ_comm. by apply IH.
    + intros H. destruct (H 0%nat nw eq_refl) as (Hu & Hm & Hg).
      rewrite Nat.add_0_r in *. rewrite decide_False, Hm by done. cbn [negb].
      destruct gate; cbn [andb].
      * destruct (Z.ltb_spec (t_conf (tok data i)) 0); [specialize (Hg eq_refl); lia|].
        apply IH. intros j word Hw. rewrite Nat.add_succ_comm. by apply (H (S j)).
      * apply IH. intros j word Hw. rewrite Nat.add_succ_comm. by apply (H (S j)).
Qed.

Lemma history_paint img x y x2 y2 w h label :
  exists bg more, img_history (paint getpixel img x y x2 y2 w h label)
                  = (img_history img ++ Rectangle x y x2 y2 bg :: more)%list.
Proof.
  unfold paint. destruct label; cbn.
  - eexists _, [_]. by rewrite <- app_assoc.
  - by eexists _, [].
Qed.

Lemma filter_none {A} (P : A -> Prop) `{!forall x, Decision (P x)} (l : list A) :
  (forall x, x ∈ l -> ~ P x) -> filter P l = [].
Proof.
  induction l as [|x l IH]; [done|]. intros Hnone.
  rewrite filter_cons, decide_False by (apply Hnone; left).
  apply IH. intros y Hy. apply Hnone. by right.
Qed.

Lemma covering_pos k spans :
  (0 < covering k spans)%nat -> exists s, s ∈ spans /\ k ∈ span_indices s.
Proof.
  unfold covering. intros H.
  destruct (filter _ spans) as [|s l] eqn:E; [simpl in H; lia|].
  assert (Hs : s ∈ filter (fun s => k ∈ span_indices s) spans) by (rewrite E; left).
  apply list_elem_of_filter in Hs. exists s. tauto.
Qed.

(** Recording a span on tokens that nobody has consumed keeps the
    invariant. *)
Lemma pass_inv_extend data st s x y x2 y2 w h label :
  pass_inv data st ->
  span_ok data s ->
  sp_rect s = (x, y, x2, y2) ->
  (forall k, k ∈ span_indices s -> k ∉ st_used st) ->
  pass_inv data
    {| st_img := paint getpixel (st_img st) x y x2 y2 w h label;
       st_used := st_used st ∪ list_to_set (span_indices s);
       st_count := S (st_count st);
       st_spans := st_spans st ++ [s] |}.
Proof.
  intros [Hused Honce Hok Hcount Hp] Hs Hrect Hfresh.
  destruct (history_paint (st_img st) x y x2 y2 w h label) as (bg & more & Hh).
  split; cbn.
  - intros s' k [Hs'| ->%list_elem_of_singleton]%elem_of_app Hk.
    + apply elem_of_union_l. by eapply Hused.
    + apply elem_of_union_r. by apply elem_of_list_to_set.
  - intros k. unfold covering. rewrite filter_app, length_app, filter_cons, filter_nil.
    destruct (decide (k ∈ span_indices s)) as [Hk|Hk]; cbn;
      [|specialize (Honce k); unfold covering in Honce; lia].
    rewrite filter_none; [done|]. intros s' Hs' Hk'.
    by apply (Hfresh k Hk), (Hused s').
  - apply Forall_app. split; [done|]. by constructor.
  - rewrite length_app, Hcount. simpl. lia.
  - apply Forall_app. split.
    + eapply Forall_impl; [exact Hp|]. intros s' (a & b & c & d & bg' & E & Hin).
      exists a, b, c, d, bg'. split; [done|]. rewrite Hh, elem_of_app. by left.
    + constructor; [|constructor]. exists x, y, x2, y2, bg. split; [done|].
      rewrite Hh, elem_of_app. right. left.
Qed.

Lemma pass_inv_window_step pass gate label data words st i :
  (pass = 1%nat /\ gate = true \/ pass = 3%nat) ->
  (2 <= length words)%nat ->
  (i + length words <= length data)%nat ->
  pass_inv data st ->
  pass_inv data (window_step getpixel pass gate label data words st i).
Proof.
  intros Hpass Hlen Hfit Hinv. unfold window_step.
  destruct (decide (i ∈ st_used st)); [done|].
  destruct (window_matched _ _ _ _ _) eqn:Hm; [|done]. cbn [negb].
  rewrite window_matched_true in Hm.
  destruct (span_box data i (length words)) as [[[x y] x2] y2] eqn:Hbox.
  set (s := {| sp_pass := pass; sp_first := i; sp_len := length words;
               sp_repl := default "" label; sp_rect := (x, y, x2, y2) |}).
  assert (Hidx : forall k, k ∈ span_indices s ->
            exists j word, k = (i + j)%nat /\ words !! j = Some word).
  { intros k Hk. unfold span_indices in Hk. cbn in Hk.
    apply elem_of_seq in Hk as [H1 H2].
    destruct (lookup_lt_is_Some_2 words (k - i)) as [word Hw]; [lia|].
    exists (k - i)%nat, word. split; [lia|done]. }
  change (list_to_set (seq i (length words))) with (list_to_set (C:=gset nat) (span_indices s)).
  apply pass_inv_extend; [done| |done|].
  - split; [done|]. cbn [sp_pass s]. destruct Hpass as [[-> ->]| ->]; cbn.
    + split_and!; [done|done|]. intros k (j & word & -> & Hw)%Hidx.
      by destruct (Hm j word Hw) as (_ & _ & Hc); apply Hc.
    + done.
  - intros k (j & word & -> & Hw)%Hidx. by destruct (Hm j word Hw).
Qed.

Lemma pass_inv_scan_term pass gate label data term st :
  (pass = 1%nat /\ gate = true \/ pass = 3%nat) ->
  pass_inv data st ->
  pass_inv data (scan_term getpixel pass gate label data term st).
Proof.
  intros Hpass Hinv. unfold scan_term.
  destruct (Nat.ltb_spec (length (Str.split term)) 2); [done|].
  apply (fold_left_invariant (pass_inv data)); [done|].
  intros st' i [_ Hi]%elem_of_seq Hst'. apply pass_inv_window_step; [done|lia|lia|done].
Qed.

Lemma pass_inv_single_step data lc_map extra_lc st i :
  (i < length data)%nat ->
  pass_inv data st ->
  pass_inv data (single_step getpixel data lc_map extra_lc st i).
Proof.
  intros Hi Hinv. unfold single_step.
  destruct (decide (i ∈ st_used st)) as [|Hu]; [done|].
  destruct (_ || _) eqn:Hgate; [done|].
  destruct (single_match _ _ _) as [repl|]; [|done].
  apply orb_false_iff in Hgate as [_ Hc%Z.ltb_ge].
  set (s := {| sp_pass := 2; sp_first := i; sp_len := 1; sp_repl := repl;
               sp_rect := _ |}).
  replace ({[i]} : gset nat) with (list_to_set (C:=gset nat) (span_indices s))
    by (unfold span_indices; cbn; by rewrite (right_id_L ∅ (∪))).
  apply pass_inv_extend; [done| |done|].
  - split; [cbn; lia|]. cbn. done.
  - intros k. unfold span_indices. cbn. by intros ->%list_elem_of_singleton.
Qed.

Lemma pass_inv_init data img :
  pass_inv data {| st_img := img; st_used := ∅; st_count := 0; st_spans := [] |}.
Proof.
  split; cbn; try done.
  - intros s k Hs. by apply elem_of_nil in Hs.
  - intros k. unfold covering. simpl. lia.
Qed.

(** The invariant holds when the three passes are over. *)
Lemma pass_inv_run_passes img data name_map extra_redact :
  pass_inv data (run_passes getpixel img data name_map extra_redact).
Proof.
  unfold run_passes, pass3, pass2, pass1.
  apply (fold_left_invariant (pass_inv data));
    [|intros st term _ Hst; apply pass_inv_scan_term; auto].
  apply (fold_left_invariant (pass_inv data));
    [|intros st i [_ Hi]%elem_of_seq Hst; apply pass_inv_single_step; [lia|done]].
  apply (fold_left_invariant (pass_inv data));
    [|intros st term _ Hst; apply pass_inv_scan_term; auto].
  apply pass_inv_init.
Qed.

End Passes.

Section Spans.

Variable getpixel : image -> Z -> Z -> color.
Variable image_to_data : image -> string -> outcome (list token).

Lemma redact_image_state_returns img name_map extra_redact data :
  _ocr_image image_to_data (to_rgb img) = Returns data ->
  redact_image_state getpixel image_to_data img name_map extra_redact
  = Returns (run_passes getpixel (to_rgb img) data name_map extra_redact).
Proof. intros H. unfold redact_image_state. by rewrite H. Qed.

Lemma matched_spans_returns img name_map extra_redact data :
  _ocr_image image_to_data (to_rgb img) = Returns data ->
  matched_spans getpixel image_to_data img name_map extra_redact
  = st_spans (run_passes getpixel (to_rgb img) data name_map extra_redact).
Proof.
  intros H. unfold matched_spans. by rewrite (redact_image_state_returns _ _ _ data).
Qed.

Lemma redact_image_returns img name_map extra_redact data :
  _ocr_image image_to_data (to_rgb img) = Returns data ->
  redact_image getpixel image_to_data img name_map extra_redact
  = Returns
      (st_img (run_passes getpixel (to_rgb img) data name_map extra_redact),
       st_count (run_passes getpixel (to_rgb img) data name_map extra_redact)).
Proof.
  intros H. unfold redact_image. by rewrite (redact_image_state_returns _ _ _ data).
Qed.

(** Either no span was matched or the spans are those of the three passes
    on the tokens the engine returned. *)
Lemma matched_spans_cases img name_map extra_redact :
  matched_spans getpixel image_to_data img name_map extra_redact = []
  \/ exists data,
       _ocr_image image_to_data (to_rgb img) = Returns data
       /\ matched_spans getpixel image_to_data img name_map extra_redact
          = st_spans (run_passes getpixel (to_rgb img) data name_map extra_redact).
Proof.
  destruct (_ocr_image image_to_data (to_rgb img)) as [data|e] eqn:E.
  - right. exists data. split; [done|]. by apply matched_spans_returns.
  - left. unfold matched_spans, redact_image_state. rewrite E. by destruct e.
Qed.

Lemma covering_two k (spans : list span) i j s1 s2 :
  spans !! i = Some s1 -> spans !! j = Some s2 -> (i < j)%nat ->
  k ∈ span_indices s1 -> k ∈ span_indices s2 ->
  (2 <= covering k spans)%nat.
Proof.
  intros Hi Hj Hlt H1 H2.
  rewrite <- (take_drop_middle spans i s1 Hi).
  assert (Hj' : drop (S i) spans !! (j - S i)%nat = Some s2).
  { rewrite lookup_drop. by replace (S i + (j - S i))%nat with j by lia. }
  rewrite <- (take_drop_middle _ _ _ Hj').
  unfold covering.
  rewrite filter_app, filter_cons, decide_True by done.
  rewrite filter_app, filter_cons, decide_True by done.
  rewrite !length_app. cbn [length]. rewrite !length_app. cbn [length]. lia.
Qed.

(** C2: when [redact_image] has run its three passes no token index lies
    in more than one matched span: the index sets of two different spans
    are disjoint. *)
Theorem matched_spans_disjoint (img : image) (name_map : dict)
    (extra_redact : option (list string)) :
  let spans := matched_spans getpixel image_to_data img name_map extra_redact in
  (forall k, (covering k spans <= 1)%nat)
  /\ (forall i j s1 s2 k,
        spans !! i = Some s1 -> spans !! j = Some s2 -> i <> j ->
        k ∈ span_indices s1 -> k ∉ span_indices s2).
Proof.
  intros spans.
  assert (Honce : forall k, (covering k spans <= 1)%nat).
  { subst spans. destruct (matched_spans_cases img name_map extra_redact)
      as [->|(data & _ & ->)].
    - intros k. unfold covering. simpl. lia.
    - apply (inv_once data), pass_inv_run_passes. }
  split; [done|]. intros i j s1 s2 k Hi Hj Hne H1 H2.
  specialize (Honce k).
  destruct (Nat.lt_total i j) as [Hlt|[->|Hlt]]; [|done|].
  - pose proof (covering_two k spans i j s1 s2 Hi Hj Hlt H1 H2). lia.
  - pose proof (covering_two k spans j i s2 s1 Hj Hi Hlt H2 H1). lia.
Qed.








(** Passes 1 and 2 leave tokens of negative confidence alone. *)
Lemma name_passes_skip_negative img name_map extra_redact data s k :
  _ocr_image image_to_data (to_rgb img) = Returns data ->
  s ∈ matched_spans getpixel image_to_data img name_map extra_redact ->
  sp_pass s = 1%nat \/ sp_pass s = 2%nat ->
  k ∈ span_indices s ->
  0 <= t_conf (tok data k).
Proof.
  intros Hocr Hs Hpass Hk.
  rewrite (matched_spans_returns _ _ _ data Hocr) in Hs.
  pose proof (pass_inv_run_passes getpixel (to_rgb img) data name_map extra_redact)
    as [_ _ Hok _ _].
  rewrite Forall_forall in Hok. specialize (Hok s Hs) as [_ Hok].
  destruct Hpass as [Hp|Hp]; rewrite Hp in Hok.
  - destruct Hok as (_ & _ & Hc). by apply Hc.
  - destruct Hok as (Hlen & _ & Hc). unfold span_indices in Hk.
    rewrite Hlen in Hk. cbn in Hk. by apply list_elem_of_singleton in Hk as ->.
Qed.

End Spans.

Lemma matched_spans_disjoint_witness : 0%nat ∉ span_indices page_span.
Proof.
  apply (proj2 (matched_spans_disjoint white_pixel (engine_of page_rows)
                  white_image alan_map (Some ["Page"]))
           0%nat 1%nat wrapped_name_span page_span 0%nat).
  - reflexivity.
  - reflexivity.
  - lia.
  - vm_compute. left.
Defined.

Section Priority.

Variable getpixel : image -> Z -> Z -> color.
Variable image_to_data : image -> string -> outcome (list token).







End Priority.


Lemma wrapped_name_ocr :
  _ocr_image (engine_of wrapped_name_rows) (to_rgb white_image)
  = Returns (unscale_token <$> wrapped_name_rows).
Proof. reflexivity. Qed.

Lemma wrapped_name_spans :
  matched_spans white_pixel (engine_of wrapped_name_rows) white_image alan_map None
  = [wrapped_name_span].
Proof. by vm_compute. Qed.



(** C7: a token of negative confidence is in no span of the multi-word
    name pass or of the single-word pass, whatever its text; a span of the
    third pass can contain such tokens. *)
Theorem negative_confidence_gate :
  (forall getpixel image_to_data img name_map extra_redact data s k,
     _ocr_image image_to_data (to_rgb img) = Returns data ->
     s ∈ matched_spans getpixel image_to_data img name_map extra_redact ->
     sp_pass s = 1%nat \/ sp_pass s = 2%nat ->
     k ∈ span_indices s ->
     0 <= t_conf (tok data k))
  /\ (_ocr_image (engine_of address_rows) (to_rgb white_image)
      = Returns (unscale_token <$> address_rows)
      /\ matched_spans white_pixel (engine_of address_rows) white_image []
           (Some ["3273 Streamside"])
         = [address_span]
      /\ sp_pass address_span = 3%nat
      /\ span_indices address_span = [1; 2]%nat
      /\ t_conf (tok (unscale_token <$> address_rows) 1) < 0
      /\ t_conf (tok (unscale_token <$> address_rows) 2) < 0).
Proof.
  split; [apply name_passes_skip_negative|].
  split_and!; [reflexivity|by vm_compute|reflexivity|reflexivity|by vm_compute..].
Qed.

Lemma negative_confidence_gate_witness :
  0 <= t_conf (tok (unscale_token <$> wrapped_name_rows) 1).
Proof.
  apply (proj1 negative_confidence_gate white_pixel (engine_of wrapped_name_rows)
           white_image alan_map None (unscale_token <$> wrapped_name_rows)
           wrapped_name_span 1%nat).
  - reflexivity.
  - vm_compute. left.
  - left. reflexivity.
  - vm_compute. right. left.
Defined.

Section NoMatch.

Variable getpixel : image -> Z -> Z -> color.
Variable image_to_data : image -> string -> outcome (list token).

Lemma insert_by_len_perm x l : insert_by_len x l ≡ₚ x :: l.
Proof.
  induction l as [|y l IH]; [done|]. cbn [insert_by_len].
  destruct (Str.len y <=? Str.len x)%nat; [done|].
  rewrite IH. apply Permutation_swap.
Qed.

Lemma sorted_by_len_desc_perm l : sorted_by_len_desc l ≡ₚ l.
Proof.
  induction l as [|x l IH]; [done|]. cbn. by rewrite insert_by_len_perm, IH.
Qed.

Lemma elem_of_sorted_names name lc_map :
  name ∈ sorted_names lc_map <-> name ∈ lc_map.*1.
Proof. unfold sorted_names. by rewrite sorted_by_len_desc_perm. Qed.

Lemma window_step_no_hit pass gate label data words st i :
  st_used st = ∅ ->
  ~ window_hit gate data i words ->
  window_step getpixel pass gate label data words st i = st.
Proof.
  intros Hu Hno. unfold window_step.
  destruct (decide (i ∈ st_used st)); [done|].
  destruct (window_matched _ _ _ _ _) eqn:Hm; [|done].
  exfalso. apply Hno. rewrite window_matched_true in Hm.
  intros j word Hw. destruct (Hm j word Hw) as (_ & ? & ?). done.
Qed.

Lemma scan_term_no_hit pass gate label data term st :
  st_used st = ∅ ->
  ((2 <= length (Str.split term))%nat ->
   forall i, (i + length (Str.split term) <= length data)%nat ->
             ~ window_hit gate data i (Str.split term)) ->
  scan_term getpixel pass gate label data term st = st.
Proof.
  intros Hu Hno. unfold scan_term.
  destruct (Nat.ltb_spec (length (Str.split term)) 2); [done|].
  apply (fold_left_invariant (fun st' => st' = st)); [done|].
  intros st' i [_ Hi]%elem_of_seq ->.
  apply window_step_no_hit; [done|]. apply Hno; lia.
Qed.

Lemma single_match_Some w_lc lc_map extra_lc repl :
  single_match w_lc lc_map extra_lc = Some repl ->
  exists term,
    term ∈ (lc_map.*1 ++ extra_lc)%list /\ Str.has_space term = false
    /\ _fuzzy_match w_lc term = true.
Proof.
  unfold single_match. intros H.
  destruct (find _ lc_map) as [kv|] eqn:E1.
  - apply find_some in E1 as [Hin [Hs Hm]%andb_prop].
    exists (fst kv). split_and!; [|by apply negb_true_iff|done].
    apply elem_of_app. left. apply list_elem_of_fmap. exists kv.
    split; [done|]. by apply list_elem_of_In.
  - destruct (find _ extra_lc) as [term|] eqn:E2; [|done].
    apply find_some in E2 as [Hin [Hs Hm]%andb_prop].
    exists term. split_and!; [|by apply negb_true_iff|done].
    apply elem_of_app. right. by apply list_elem_of_In.
Qed.

Lemma single_step_no_hit data lc_map extra_lc st i :
  ~ single_hit data (lc_map.*1 ++ extra_lc) i ->
  single_step getpixel data lc_map extra_lc st i = st.
Proof.
  intros Hno. unfold single_step.
  destruct (decide (i ∈ st_used st)); [done|].
  destruct (_ || _) eqn:Hgate; [done|].
  destruct (single_match _ _ _) as [repl|] eqn:Hm; [|done].
  exfalso. apply Hno.
  apply orb_false_iff in Hgate as [Hw%Nat.eqb_neq Hc%Z.ltb_ge].
  split_and!; [|done|by eapply single_match_Some].
  intros E. by rewrite E in Hw.
Qed.

(** Without a match the three passes leave the state as it was. *)
Lemma run_passes_no_match img data name_map extra_redact :
  no_token_matches data (lc_map_of name_map) (extra_lc_of extra_redact) ->
  run_passes getpixel img data name_map extra_redact
  = {| st_img := img; st_used := ∅; st_count := 0; st_spans := [] |}.
Proof.
  intros (H1 & H2 & H3). unfold run_passes.
  set (st := {| st_img := img; st_used := ∅; st_count := 0; st_spans := [] |}).
  assert (pass1 getpixel data (lc_map_of name_map) st = st) as ->.
  { unfold pass1. apply (fold_left_invariant (fun st' => st' = st)); [done|].
    intros st' name Hname%elem_of_sorted_names ->.
    apply scan_term_no_hit; [done|]. intros Hlen i Hi. by apply H1. }
  assert (pass2 getpixel data (lc_map_of name_map) (extra_lc_of extra_redact) st = st) as ->.
  { unfold pass2. apply (fold_left_invariant (fun st' => st' = st)); [done|].
    intros st' i [_ Hi]%elem_of_seq ->. apply single_step_no_hit, H2. lia. }
  unfold pass3. apply (fold_left_invariant (fun st' => st' = st)); [done|].
  intros st' term Hterm ->.
  apply scan_term_no_hit; [done|]. intros Hlen i Hi. by apply H3.
Qed.


Lemma redact_image_unpainted img name_map extra_redact data :
  _ocr_image image_to_data (to_rgb img) = Returns data ->
  no_token_matches data (lc_map_of name_map) (extra_lc_of extra_redact) ->
  redact_image getpixel image_to_data img name_map extra_redact
  = Returns (to_rgb img, 0%nat)
  /\ matched_spans getpixel image_to_data img name_map extra_redact = [].
Proof.
  intros Hocr Hno.
  rewrite (redact_image_returns _ _ _ _ _ data Hocr).
  rewrite (matched_spans_returns _ _ _ _ _ data Hocr).
  by rewrite run_passes_no_match.
Qed.



Lemma no_token_matches_nil lc_map extra_lc : no_token_matches [] lc_map extra_lc.
Proof.
  split_and!.
  - intros name i _ Hlen Hfit. simpl in Hfit. lia.
  - intros i Hi. simpl in Hi. lia.
  - intros term i _ Hlen Hfit. simpl in Hfit. lia.
Qed.

(** The engine-not-found error of [image_to_data] never leaves
    [_ocr_image]: the loop over the configurations swallows it. *)
Lemma ocr_image_never_not_found img :
  _ocr_image image_to_data img <> Raises TesseractNotFoundError.
Proof.
  assert (Hacc : forall e,
            fold_left (ocr_try image_to_data img) ["--psm 6"; "--psm 11"]
              (Returns (None, 0%nat)) = Raises e ->
            is_Exception e = false).
  { apply (fold_left_invariant
             (fun acc => forall e, acc = Raises e -> is_Exception e = false));
      [done|].
    intros [[best n]|e0] config _ IH e; cbn [ocr_try]; [|by apply IH].
    destruct (image_to_data img config) as [d|e1].
    - by destruct (n <? word_count d)%nat.
    - destruct (is_Exception e1) eqn:E1; [done|]. by intros [= <-]. }
  unfold _ocr_image. destruct (fold_left _ _ _) as [[[d|] n]|e]; [done..|].
  intros [= ->]. by specialize (Hacc _ eq_refl).
Qed.


End NoMatch.



Section ScanOrder.

Variable getpixel : image -> Z -> Z -> color.

Lemma insert_by_len_sorted x l :
  StronglySorted longer_first l -> StronglySorted longer_first (insert_by_len x l).
Proof.
  induction 1 as [|y l Hs IH Hall]; [repeat constructor|].
  cbn [insert_by_len]. destruct (Nat.leb_spec (Str.len y) (Str.len x)) as [Hle|Hgt].
  - constructor; [by constructor|]. constructor; [done|].
    eapply Forall_impl; [exact Hall|]. unfold longer_first. intros; lia.
  - constructor; [done|].
    rewrite insert_by_len_perm. constructor; [unfold longer_first; lia|done].
Qed.

Lemma sorted_by_len_desc_sorted l : StronglySorted longer_first (sorted_by_len_desc l).
Proof.
  induction l as [|x l IH]; [constructor|]. by apply insert_by_len_sorted.
Qed.

(** The sort is stable: strings of one length keep their order. *)
Lemma insert_by_len_stable n x l :
  filter (fun s => Str.len s = n) (insert_by_len x l)
  = filter (fun s => Str.len s = n) (x :: l).
Proof.
  induction l as [|y l IH]; [done|]. cbn [insert_by_len].
  destruct (Nat.leb_spec (Str.len y) (Str.len x)) as [Hle|Hgt]; [done|].
  rewrite filter_cons, IH, !filter_cons.
  destruct (decide (Str.len y = n)), (decide (Str.len x = n)); try done. lia.
Qed.

Lemma sorted_by_len_desc_stable n l :
  filter (fun s => Str.len s = n) (sorted_by_len_desc l)
  = filter (fun s => Str.len s = n) l.
Proof.
  induction l as [|x l IH]; [done|]. cbn [sorted_by_len_desc foldr].
  fold (sorted_by_len_desc l). by rewrite insert_by_len_stable, !filter_cons, IH.
Qed.

Lemma sorted_lookup {A} (R : relation A) (l : list A) i j x y :
  StronglySorted R l -> l !! i = Some x -> l !! j = Some y -> (i < j)%nat -> R x y.
Proof.
  intros Hs. revert i j. induction Hs as [|a l Hs IH Hall]; intros i j Hi Hj Hlt.
  - by rewrite lookup_nil in Hi.
  - destruct j as [|j]; [lia|]. cbn in Hj. destruct i as [|i].
    + injection Hi as <-. rewrite Forall_forall in Hall.
      by eapply Hall, list_elem_of_lookup_2.
    + cbn in Hi. apply (IH i j); [done..|lia].
Qed.

Lemma StronglySorted_filter {A} (R : relation A) (P : A -> Prop)
    `{!forall x, Decision (P x)} (l : list A) :
  StronglySorted R l -> StronglySorted R (filter P l).
Proof.
  induction 1 as [|a l Hs IH Hall]; [constructor|].
  rewrite filter_cons. destruct (decide (P a)); [|done].
  constructor; [done|]. rewrite Forall_forall in *.
  intros b [_ Hb]%list_elem_of_filter. by apply Hall.
Qed.

Lemma scan_order_sorted lc_map : StronglySorted longer_first (scan_order lc_map).
Proof. apply StronglySorted_filter, sorted_by_len_desc_sorted. Qed.

(** The first pass is the scan of the terms of [scan_order], in that
    order. *)
Lemma pass1_scan_order data lc_map st :
  pass1 getpixel data lc_map st
  = fold_left
      (fun st name =>
         fold_left
           (window_step getpixel 1 true (Some (dict_get name lc_map)) data
              (Str.split name))
           (seq 0 (length data + 1 - length (Str.split name))) st)
      (scan_order lc_map) st.
Proof.
  unfold pass1, scan_order. generalize (sorted_names lc_map). intros l.
  revert st. induction l as [|name l IH]; intros st; [done|].
  cbn [fold_left]. rewrite filter_cons. unfold scan_term at 2.
  destruct (Nat.ltb_spec (length (Str.split name)) 2) as [Hlt|Hge].
  - rewrite decide_False by lia. apply IH.
  - rewrite decide_True by lia. cbn [fold_left]. apply IH.
Qed.

(** C4 (as amended): the first pass scans the terms of two words or more
    in descending order of their length in characters, terms of equal
    length in the order of the map; a term is scanned before every term
    with fewer characters, whatever their word counts. *)
Theorem scan_order_by_length (name_map : dict) (a b : string) :
  a ∈ scan_order (lc_map_of name_map) ->
  b ∈ scan_order (lc_map_of name_map) ->
  (Str.len b < Str.len a)%nat ->
  before a b (scan_order (lc_map_of name_map))
  /\ ~ before b a (scan_order (lc_map_of name_map))
  /\ StronglySorted longer_first (scan_order (lc_map_of name_map))
  /\ (forall n,
        filter (fun s => Str.len s = n) (sorted_names (lc_map_of name_map))
        = filter (fun s => Str.len s = n) (lc_map_of name_map).*1)
  /\ (forall data st,
        pass1 getpixel data (lc_map_of name_map) st
        = fold_left
            (fun st name =>
               fold_left
                 (window_step getpixel 1 true
                    (Some (dict_get name (lc_map_of name_map))) data
                    (Str.split name))
                 (seq 0 (length data + 1 - length (Str.split name))) st)
            (scan_order (lc_map_of name_map)) st).
Proof.
  intros [i Hi]%list_elem_of_lookup [j Hj]%list_elem_of_lookup Hlen.
  pose proof (scan_order_sorted (lc_map_of name_map)) as Hs.
  assert (Hnot : ~ before b a (scan_order (lc_map_of name_map))).
  { intros (i' & j' & Hi' & Hj' & Hlt).
    pose proof (sorted_lookup _ _ _ _ _ _ Hs Hi' Hj' Hlt) as HR.
    unfold longer_first in HR. lia. }
  split_and!; [|done|done|intros n; apply sorted_by_len_desc_stable
               |intros; apply pass1_scan_order].
  exists i, j. split_and!; [done..|].
  destruct (Nat.lt_total i j) as [Hlt|[->|Hlt]]; [done| |].
  - rewrite Hi in Hj. injection Hj as ->. lia.
  - exfalso. apply Hnot. by exists j, i.
Qed.

End ScanOrder.

Lemma scan_order_by_length_witness :
  before "c wwwww" "a b c" (scan_order (lc_map_of initials_map))
  /\ ~ before "a b c" "c wwwww" (scan_order (lc_map_of initials_map))
  /\ StronglySorted longer_first (scan_order (lc_map_of initials_map))
  /\ (forall n,
        filter (fun s => Str.len s = n) (sorted_names (lc_map_of initials_map))
        = filter (fun s => Str.len s = n) (lc_map_of initials_map).*1)
  /\ (forall data st,
        pass1 white_pixel data (lc_map_of initials_map) st
        = fold_left
            (fun st name =>
               fold_left
                 (window_step white_pixel 1 true
                    (Some (dict_get name (lc_map_of initials_map))) data
                    (Str.split name))
                 (seq 0 (length data + 1 - length (Str.split name))) st)
            (scan_order (lc_map_of initials_map)) st).
Proof.
  apply (scan_order_by_length white_pixel initials_map "c wwwww" "a b c").
  - vm_compute. left.
  - vm_compute. right. left.
  - simpl. lia.
Defined.

(** C4 (as stated) fails on a three-word term of five characters and a
    two-word term of seven: the two-word term is scanned first and takes
    the token they compete for. *)
Lemma scan_order_not_by_word_count :
  scan_order (lc_map_of initials_map) = ["c wwwww"; "a b c"]
  /\ length (Str.split "a b c") = 3%nat
  /\ length (Str.split "c wwwww") = 2%nat
  /\ ~ before "a b c" "c wwwww" (scan_order (lc_map_of initials_map))
  /\ matched_spans white_pixel (engine_of initials_rows) white_image
       initials_map None
     = [{| sp_pass := 1; sp_first := 2; sp_len := 2; sp_repl := "Y";
           sp_rect := (30, 0, 95, 10) |}].
Proof.
  split_and!; [reflexivity..| |by vm_compute].
  change (scan_order (lc_map_of initials_map)) with ["c wwwww"; "a b c"].
  intros (i & j & Hi & Hj & Hlt).
  destruct i as [|[|i]]; [discriminate Hi| |discriminate Hi].
  destruct j as [|[|j]]; [lia|discriminate Hj|discriminate Hj].
Qed.

(** * The lookup-file repair *)

Local Close Scope string_scope.

(** ** Strings and joins *)

Section StringFacts.

Lemma append_String c (a b : string) :
  (String c a ++ b)%string = String c (a ++ b)%string.
Proof. reflexivity. Qed.

Lemma append_nil_r (s : string) : (s ++ "")%string = s.
Proof.
  induction s as [|c s IH]; [reflexivity|]. by rewrite append_String, IH.
Qed.

Lemma append_assoc (a b c : string) : ((a ++ b) ++ c)%string = (a ++ (b ++ c))%string.
Proof.
  induction a as [|x a IH]; [reflexivity|]. by rewrite !append_String, IH.
Qed.

Lemma join_cons sep x l :
  l <> [] -> join sep (x :: l) = (x ++ sep ++ join sep l)%string.
Proof. by destruct l. Qed.

Lemma join_app sep l1 l2 :
  l1 <> [] -> l2 <> [] ->
  join sep (l1 ++ l2) = (join sep l1 ++ sep ++ join sep l2)%string.
Proof.
  intros H1 H2. induction l1 as [|x l1 IH]; [done|].
  destruct l1 as [|y l1].
  - cbn [app]. by rewrite join_cons.
  - change ((x :: y :: l1) ++ l2)%list with (x :: ((y :: l1) ++ l2))%list.
    rewrite join_cons by done. rewrite IH by done.
    rewrite (join_cons sep x (y :: l1)) by done.
    by rewrite !append_assoc.
Qed.

(** Joining a run of fields first and the row afterwards is joining the
    row. *)
Lemma join_nested sep l1 m l2 :
  m <> [] -> join sep (l1 ++ join sep m :: l2) = join sep (l1 ++ m ++ l2).
Proof.
  intros Hm.
  assert (Htail : join sep (join sep m :: l2) = join sep (m ++ l2)).
  { destruct l2 as [|z l2]; [by rewrite app_nil_r|].
    rewrite join_cons by done. by rewrite join_app. }
  destruct l1 as [|x l1]; [done|].
  rewrite !join_app by (try done; by destruct m). by rewrite Htail.
Qed.

Lemma split_on_nonempty sep s : split_on sep s <> [].
Proof.
  destruct s as [|c s]; [done|]. cbn [split_on].
  destruct (Ascii.eqb c sep); [done|]. by destruct (split_on sep s).
Qed.

Lemma join_split_on (sep : ascii) (s : string) :
  join (String sep "") (split_on sep s) = s.
Proof.
  induction s as [|c s IH]; [done|]. cbn [split_on].
  pose proof (split_on_nonempty sep s) as Hne.
  destruct (Ascii.eqb_spec c sep) as [->|Hc].
  - rewrite join_cons by done. by rewrite IH.
  - destruct (split_on sep s) as [|x rest]; [done|].
    destruct rest as [|y rest]; [cbn [join] in *; congruence|].
    rewrite join_cons in IH |- * by done. by rewrite append_String, IH.
Qed.

End StringFacts.

(** ** [reassemble_row] *)

Section CsvFacts.

Variable py_int : string -> option Z.

Lemma cardplay_idx_Some raw idx :
  cardplay_idx py_int raw = Some idx ->
  (11 <= idx)%nat /\ (idx + 1 < length raw)%nat
  /\ is_cardplay (field raw idx) = true
  /\ is_claim py_int (field raw (idx + 1)) = true.
Proof.
  unfold cardplay_idx. intros [Hin H]%find_some.
  apply in_seq in Hin.
  apply andb_prop in H as [H1 [H2%Nat.ltb_lt H3]%andb_prop].
  split_and!; [lia|done..].
Qed.

Lemma reassemble_row_long raw :
  (15 < length raw)%nat ->
  reassemble_row py_int raw =
  take 11 raw ++
    match cardplay_idx py_int raw with
    | None => [join "," (drop 11 raw); ""; ""; ""]
    | Some idx =>
        [join "," (take (idx - 11) (drop 11 raw)); field raw idx;
         field raw (idx + 1);
         if (idx + 2 <? length raw)%nat then join "," (drop (idx + 2) raw) else ""]
    end.
Proof.
  intros Hn. unfold reassemble_row, EXPECTED_COLS.
  destruct (Nat.eqb_spec (length raw) 15); [lia|].
  destruct (Nat.ltb_spec (length raw) 15); [lia|].
  destruct (cardplay_idx py_int raw) as [idx|] eqn:E; [|done].
  apply cardplay_idx_Some in E as (_ & Hlt & _).
  by destruct (Nat.ltb_spec (idx + 1) (length raw)); [|lia].
Qed.

(** X1: [reassemble_row] returns exactly 15 fields whatever it is given, so
    applying it to its own result changes nothing. *)
Theorem reassemble_row_15_fields (raw : list string) :
  length (reassemble_row py_int raw) = 15%nat
  /\ reassemble_row py_int (reassemble_row py_int raw) = reassemble_row py_int raw.
Proof.
  assert (Hlen : length (reassemble_row py_int raw) = 15%nat).
  { destruct (decide (15 < length raw)%nat) as [Hn|Hn].
    - rewrite reassemble_row_long by done.
      rewrite length_app, length_take.
      destruct (cardplay_idx py_int raw); cbn [length]; lia.
    - unfold reassemble_row, EXPECTED_COLS.
      destruct (Nat.eqb_spec (length raw) 15); [done|].
      destruct (Nat.ltb_spec (length raw) 15); [|lia].
      rewrite length_app, length_replicate. lia. }
  split; [done|]. unfold reassemble_row at 1. unfold EXPECTED_COLS.
  by rewrite Hlen.
Qed.

(** X2: a row of at most 15 fields is kept and padded with empty strings;
    in every row the fields 0 to 10 stay as they are. *)
Theorem reassemble_row_keeps_head (raw : list string) :
  ((length raw <= 15)%nat ->
   reassemble_row py_int raw = raw ++ replicate (15 - length raw) "")
  /\ (forall i, (i < 11)%nat -> (i < length raw)%nat ->
        reassemble_row py_int raw !! i = raw !! i).
Proof.
  assert (Hshort : (length raw <= 15)%nat ->
            reassemble_row py_int raw = raw ++ replicate (15 - length raw) "").
  { intros Hn. unfold reassemble_row, EXPECTED_COLS.
    destruct (Nat.eqb_spec (length raw) 15) as [E|E].
    - rewrite E. cbn. by rewrite app_nil_r.
    - by destruct (Nat.ltb_spec (length raw) 15); [|lia]. }
  split; [done|]. intros i Hi Hlt.
  destruct (decide (15 < length raw)%nat) as [Hn|Hn].
  - rewrite reassemble_row_long by done.
    rewrite lookup_app_l by (rewrite length_take; lia).
    by rewrite lookup_take_lt.
  - rewrite Hshort by lia. by rewrite lookup_app_l.
Qed.

(** X3: when a row has more than 15 raw fields, field 12 of the result
    always looks like a cardplay and field 13 like a claim, whether the scan
    found them or fell back to empty strings. *)
Theorem reassemble_row_fields_recognised (raw : list string) :
  (15 < length raw)%nat ->
  is_cardplay (field (reassemble_row py_int raw) 12) = true
  /\ is_claim py_int (field (reassemble_row py_int raw) 13) = true.
Proof.
  intros Hn. rewrite reassemble_row_long by done.
  assert (Hf : forall l k, field (take 11 raw ++ l) (11 + k) = field l k).
  { intros l k. unfold field. rewrite lookup_app_r by (rewrite length_take; lia).
    rewrite length_take. do 2 f_equal. lia. }
  rewrite (Hf _ 1%nat), (Hf _ 2%nat).
  destruct (cardplay_idx py_int raw) as [idx|] eqn:E; [|split; reflexivity].
  apply cardplay_idx_Some in E as (_ & _ & H1 & H2). split; [exact H1|exact H2].
Qed.

Lemma reassemble_row_join_raw (raw : list string) :
  (15 < length raw)%nat ->
  (forall idx,
     cardplay_idx py_int raw = Some idx ->
     (11 < idx)%nat -> (idx + 2 < length raw)%nat ->
     join "," (reassemble_row py_int raw) = join "," raw)
  /\ (cardplay_idx py_int raw = None ->
      join "," (take 12 (reassemble_row py_int raw)) = join "," raw).
Proof.
  intros Hn. rewrite reassemble_row_long by done. split.
  - intros idx E Hlo Hhi. rewrite E.
    destruct (Nat.ltb_spec (idx + 2) (length raw)); [|lia].
    apply cardplay_idx_Some in E as (_ & Hlt & _).
    assert (Hraw : raw = (take 11 raw ++ take (idx - 11) (drop 11 raw)
                           ++ field raw idx :: field raw (idx + 1)
                           :: drop (idx + 2) raw)%list).
    { rewrite <- (take_drop 11 raw) at 1. f_equal.
      rewrite <- (take_drop (idx - 11) (drop 11 raw)) at 1. f_equal.
      rewrite drop_drop. replace (11 + (idx - 11))%nat with idx by lia.
      unfold field.
      destruct (lookup_lt_is_Some_2 raw idx) as [a Ha]; [lia|].
      destruct (lookup_lt_is_Some_2 raw (idx + 1)) as [b Hb]; [lia|].
      rewrite Ha, Hb. cbn.
      rewrite (drop_S _ _ _ Ha). f_equal.
      replace (S idx) with (idx + 1)%nat by lia.
      rewrite (drop_S _ _ _ Hb). do 2 f_equal. lia. }
    set (m := take (idx - 11) (drop 11 raw)) in *.
    set (d := drop (idx + 2) raw) in *.
    assert (Hm : m <> []).
    { intros E0. apply (f_equal length) in E0. subst m.
      rewrite length_take, length_drop in E0. simpl in E0. lia. }
    assert (Hd : d <> []).
    { intros E0. apply (f_equal length) in E0. subst d.
      rewrite length_drop in E0. simpl in E0. lia. }
    transitivity (join "," (take 11 raw ++ m ++ field raw idx :: field raw (idx + 1) :: d));
      [|by rewrite <- Hraw].
    rewrite (join_nested "," (take 11 raw) m) by done.
    pose proof (join_nested "," (take 11 raw ++ m ++ [field raw idx; field raw (idx + 1)])
                  d [] Hd) as Hn2.
    rewrite app_nil_r in Hn2. rewrite <- !app_assoc in Hn2. exact Hn2.
  - intros ->. rewrite take_app_ge by (rewrite length_take; lia).
    rewrite length_take. replace (12 - Nat.min 11 (length raw))%nat with 1%nat by lia.
    cbn [take]. rewrite join_nested.
    2:{ intros E0. apply (f_equal length) in E0.
        rewrite length_drop in E0. simpl in E0. lia. }
    by rewrite app_nil_r, take_drop.
Qed.

(** X4: the repair of a line with more than 15 comma-separated pieces loses
    no character.  When the scan finds the cardplay after at least one
    explanation piece and a URL follows the claim, joining the 15 fields
    with commas gives the line back; when the scan finds nothing, the first
    twelve fields of the result do. *)
Theorem reassemble_row_join (line : string) :
  (15 < length (split_on ","%char line))%nat ->
  (forall idx,
     cardplay_idx py_int (split_on ","%char line) = Some idx ->
     (11 < idx)%nat -> (idx + 2 < length (split_on ","%char line))%nat ->
     join "," (reassemble_row py_int (split_on ","%char line)) = line)
  /\ (cardplay_idx py_int (split_on ","%char line) = None ->
      join "," (take 12 (reassemble_row py_int (split_on ","%char line))) = line).
Proof.
  intros Hn.
  destruct (reassemble_row_join_raw (split_on ","%char line) Hn) as [H1 H2].
  split.
  - intros idx E Hlo Hhi. rewrite (H1 idx E Hlo Hhi). apply join_split_on.
  - intros E. rewrite (H2 E). apply join_split_on.
Qed.

Lemma fix_line_fold rest out total fixed :
  fold_left (fix_line py_int) rest (out, total, fixed)
  = (out ++ ((fun line => reassemble_row py_int (split_on ","%char line))
               <$> filter nonblank rest),
     (total + length (filter nonblank rest))%nat,
     (fixed + length (filter (fun line => length (split_on ","%char line) <> 15%nat)
                        (filter nonblank rest)))%nat).
Proof.
  revert out total fixed. induction rest as [|line rest IH]; intros out total fixed.
  - cbn. by rewrite app_nil_r, !Nat.add_0_r.
  - cbn [fold_left fix_line].
    destruct (Nat.eqb_spec (Str.len (Str.strip line)) 0) as [E|E].
    + assert (filter nonblank (line :: rest) = filter nonblank rest) as ->.
      { rewrite filter_cons. by rewrite decide_False by (by intros ?). }
      apply IH.
    + assert (filter nonblank (line :: rest) = line :: filter nonblank rest) as ->.
      { rewrite filter_cons. by rewrite decide_True. }
      rewrite IH. cbn [fmap list_fmap length]. rewrite filter_cons.
      unfold EXPECTED_COLS.
      destruct (Nat.eqb_spec (length (split_on ","%char line)) 15) as [E2|E2].
      * rewrite decide_False by (by intros ?).
        rewrite <- app_assoc. cbn [app]. repeat (f_equal; try lia).
      * rewrite decide_True by done.
        rewrite <- app_assoc. cbn [app length]. repeat (f_equal; try lia).
Qed.

(** X5: [fix_lookup_csv] keeps the header row as split, writes one row of
    exactly 15 fields for every non-blank line after it, in order, and
    drops the blank lines; it reports the number of these rows and, as
    fixed, those whose raw split did not have 15 pieces. *)
Theorem fix_rows_shape (header : string) (rest : list string) :
  exists rows fixed,
    fix_rows py_int (header :: rest)
    = Some (split_on ","%char header :: rows, length rows, fixed)
    /\ rows = (fun line => reassemble_row py_int (split_on ","%char line))
                <$> filter nonblank rest
    /\ Forall (fun row => length row = 15%nat) rows
    /\ fixed = length (filter (fun line => length (split_on ","%char line) <> 15%nat)
                         (filter nonblank rest))
    /\ (fixed <= length rows)%nat.
Proof.
  eexists _, _. split_and!; [|reflexivity| |reflexivity|].
  - cbn [fix_rows]. rewrite fix_line_fold. cbn [app]. rewrite length_fmap.
    by rewrite !Nat.add_0_l.
  - apply Forall_fmap, Forall_forall. intros line _. cbn.
    destruct (decide (15 < length (split_on ","%char line))%nat) as [Hn|Hn].
    + rewrite reassemble_row_long by done. rewrite length_app, length_take.
      destruct (cardplay_idx py_int _); cbn [length]; lia.
    + unfold reassemble_row, EXPECTED_COLS.
      destruct (Nat.eqb_spec (length (split_on ","%char line)) 15); [done|].
      destruct (Nat.ltb_spec (length (split_on ","%char line)) 15); [|lia].
      rewrite length_app, length_replicate. lia.
  - rewrite length_fmap. apply length_filter.
Qed.

End CsvFacts.

(** ** The cardplay pattern *)

Section Regex.

Import Re.

Lemma append_empty_inv (s1 s2 : string) :
  (s1 ++ s2)%string = "" -> s1 = "" /\ s2 = "".
Proof. destruct s1; [done|]. by rewrite append_String. Qed.

Lemma append_cons_inv (s1 s2 : string) c s :
  (s1 ++ s2)%string = String c s ->
  (s1 = "" /\ s2 = String c s)
  \/ exists s1', s1 = String c s1' /\ s = (s1' ++ s2)%string.
Proof.
  destruct s1 as [|c1 s1]; [by left|]. rewrite append_String.
  intros [= -> <-]. right. by eexists.
Qed.

Lemma lang_cat_inv r1 r2 s :
  re_lang (Cat r1 r2) s ->
  exists s1 s2, s = (s1 ++ s2)%string /\ re_lang r1 s1 /\ re_lang r2 s2.
Proof. inversion 1; subst. by eexists _, _. Qed.

Lemma lang_alt_inv r1 r2 s :
  re_lang (Alt r1 r2) s -> re_lang r1 s \/ re_lang r2 s.
Proof. inversion 1; subst; auto. Qed.

Lemma lang_cls_inv cs s :
  re_lang (Cls cs) s -> exists c, mem c cs = true /\ s = String c "".
Proof. inversion 1; subst. by eexists. Qed.

Lemma lang_eps_inv s : re_lang Eps s -> s = "".
Proof. by inversion 1. Qed.

Lemma lang_void_inv s : ~ re_lang Void s.
Proof. inversion 1. Qed.

(** A non-empty word of a starred expression starts with a non-empty word
    of the expression. *)
Lemma lang_star_cons_inv r c s :
  re_lang (Star r) (String c s) ->
  exists s1 s2,
    s = (s1 ++ s2)%string /\ re_lang r (String c s1) /\ re_lang (Star r) s2.
Proof.
  intros H. remember (Star r) as r' eqn:Er. remember (String c s) as w eqn:Ew.
  revert s Ew.
  induction H as [| | | | | |r0 s1 s2 H1 _ H2 IH2]; intros t Ew;
    try discriminate.
  injection Er as ->.
  apply append_cons_inv in Ew as [[-> ->]|(s1' & -> & ->)].
  - by apply IH2.
  - by eexists _, _.
Qed.

Lemma nullable_lang r : nullable r = true <-> re_lang r "".
Proof.
  induction r as [| |cs|r1 IH1 r2 IH2|r1 IH1 r2 IH2|r IH]; cbn [nullable].
  - split; [done|]. by intros ?%lang_void_inv.
  - split; [constructor|done].
  - split; [done|]. by intros (c & _ & ?)%lang_cls_inv.
  - rewrite andb_true_iff, IH1, IH2. split.
    + intros [H1 H2]. by apply (lang_cat _ _ "" "").
    + intros (s1 & s2 & E & H1 & H2)%lang_cat_inv.
      symmetry in E. apply append_empty_inv in E as [-> ->]. done.
  - rewrite orb_true_iff, IH1, IH2. split.
    + intros [H|H]; [by apply lang_alt_l|by apply lang_alt_r].
    + apply lang_alt_inv.
  - split; [constructor|done].
Qed.

Lemma deriv_lang c r s : re_lang (deriv c r) s <-> re_lang r (String c s).
Proof.
  revert s. induction r as [| |cs|r1 IH1 r2 IH2|r1 IH1 r2 IH2|r IH]; intros s;
    cbn [deriv].
  - split; by intros ?%lang_void_inv.
  - split; [by intros ?%lang_void_inv|by intros ?%lang_eps_inv].
  - destruct (mem c cs) eqn:Hm; split.
    + intros ->%lang_eps_inv. by constructor.
    + intros (c' & _ & [= -> ->])%lang_cls_inv. constructor.
    + by intros ?%lang_void_inv.
    + intros (c' & Hc & [= -> ->])%lang_cls_inv. congruence.
  - assert (Hcat : re_lang (Cat (deriv c r1) r2) s
                   <-> exists s1 s2, s = (s1 ++ s2)%string
                                     /\ re_lang r1 (String c s1) /\ re_lang r2 s2).
    { split.
      - intros (s1 & s2 & -> & H1%IH1 & H2)%lang_cat_inv. by eexists _, _.
      - intros (s1 & s2 & -> & H1%IH1 & H2). by constructor. }
    destruct (nullable r1) eqn:Hn; split.
    + intros [(s1 & s2 & -> & H1 & H2)%Hcat|H%IH2]%lang_alt_inv.
      * rewrite <- append_String. by constructor.
      * apply nullable_lang in Hn. by apply (lang_cat _ _ "" (String c s)).
    + intros (s1 & s2 & E & H1 & H2)%lang_cat_inv. symmetry in E.
      apply append_cons_inv in E as [[-> ->]|(s1' & -> & ->)].
      * apply lang_alt_r. by apply IH2.
      * apply lang_alt_l, Hcat. by eexists _, _.
    + intros (s1 & s2 & -> & H1 & H2)%Hcat.
      rewrite <- append_String. by constructor.
    + intros (s1 & s2 & E & H1 & H2)%lang_cat_inv. symmetry in E.
      apply append_cons_inv in E as [[-> ->]|(s1' & -> & ->)].
      * apply nullable_lang in H1. congruence.
      * apply Hcat. by eexists _, _.
  - split.
    + intros [H%IH1|H%IH2]%lang_alt_inv; [by apply lang_alt_l|by apply lang_alt_r].
    + intros [H%IH1|H%IH2]%lang_alt_inv; [by apply lang_alt_l|by apply lang_alt_r].
  - split.
    + intros (s1 & s2 & -> & H1%IH & H2)%lang_cat_inv.
      rewrite <- append_String. by constructor.
    + intros (s1 & s2 & -> & H1%IH & H2)%lang_star_cons_inv. by constructor.
Qed.

(** The matcher decides the language. *)
Lemma matches_lang r s : matches r s = true <-> re_lang r s.
Proof.
  revert r. induction s as [|c s IH]; intros r; cbn [matches].
  - apply nullable_lang.
  - by rewrite IH, deriv_lang.
Qed.

Lemma chars_app (s1 s2 : string) : chars (s1 ++ s2)%string = chars s1 ++ chars s2.
Proof.
  induction s1 as [|c s1 IH]; [done|]. rewrite append_String. cbn. by rewrite IH.
Qed.

Lemma mem_chars c cs : mem c cs = true <-> c ∈ chars cs.
Proof.
  induction cs as [|c' cs IH]; cbn [mem chars].
  - split; [done|]. by intros ?%elem_of_nil.
  - rewrite orb_true_iff, elem_of_cons, IH.
    destruct (Ascii.eqb_spec c c') as [E|E]; split; intros [H|H]; auto; done.
Qed.

Lemma lang_alphabet r s c : re_lang r s -> c ∈ chars s -> c ∈ alphabet r.
Proof.
  induction 1 as [|cs c' Hm|r1 r2 s1 s2 _ IH1 _ IH2|r1 r2 s _ IH|r1 r2 s _ IH
                  | |r0 s1 s2 _ IH1 _ IH2]; cbn [alphabet chars].
  - by intros ?%elem_of_nil.
  - intros ->%list_elem_of_singleton. by apply mem_chars.
  - rewrite chars_app, !elem_of_app. tauto.
  - rewrite elem_of_app. tauto.
  - rewrite elem_of_app. tauto.
  - by intros ?%elem_of_nil.
  - cbn [alphabet] in IH2. rewrite chars_app, elem_of_app. tauto.
Qed.

Lemma chomp_Some s s' : chomp s = Some s' -> s = (s' ++ "
")%string.
Proof.
  revert s'. induction s as [|c s IH]; intros s'; [done|]. cbn [chomp].
  destruct s as [|c2 s2].
  - destruct (Ascii.eqb_spec c "010"%char) as [->|Hc]; [|done]. by intros [= <-].
  - destruct (chomp (String c2 s2)) as [t|]; [|done].
    intros [= <-]. by rewrite append_String, <- (IH t).
Qed.

Lemma chomp_app s' : chomp (s' ++ "
")%string = Some s'.
Proof.
  induction s' as [|c t IH]; [done|]. rewrite append_String.
  destruct (t ++ "
")%string as [|x y] eqn:E.
  - by apply append_empty_inv in E as [_ ?].
  - cbn [chomp]. cbn [chomp] in IH. by rewrite IH.
Qed.

Lemma chomp_spec s s' : chomp s = Some s' <-> s = (s' ++ "
")%string.
Proof. split; [apply chomp_Some|intros ->; apply chomp_app]. Qed.

Lemma split_on_absent sep s : sep ∉ chars s -> split_on sep s = [s].
Proof.
  induction s as [|c s IH]; [done|]. cbn [chars split_on].
  rewrite not_elem_of_cons. intros [Hc Hs].
  destruct (Ascii.eqb_spec c sep); [congruence|]. by rewrite IH.
Qed.

Lemma join_empty_cons x l : join "" (x :: l) = (x ++ join "" l)%string.
Proof. destruct l; [by rewrite append_nil_r|done]. Qed.

Lemma lang_star_list r s :
  re_lang (Star r) s <-> exists ss, Forall (re_lang r) ss /\ s = join "" ss.
Proof.
  split.
  - intros H. remember (Star r) as r' eqn:Er.
    induction H as [| | | | | |r0 s1 s2 H1 _ H2 IH2]; try discriminate.
    + by exists [].
    + injection Er as ->. destruct (IH2 eq_refl) as (ss & Hss & ->).
      exists (s1 :: ss). split; [by constructor|]. by rewrite join_empty_cons.
  - intros (ss & Hss & ->). induction Hss as [|x l Hx _ IH]; [constructor|].
    rewrite join_empty_cons. by constructor.
Qed.

(** Words of [r] separated by the character [sep]. *)
Lemma lang_separated r sep s :
  re_lang (Cat r (Star (Cat (Cls (String sep "")) r))) s <->
  exists l, l <> [] /\ Forall (re_lang r) l /\ s = join (String sep "") l.
Proof.
  assert (Hsep : forall l x,
            join (String sep "") (x :: l)
            = (x ++ join "" ((fun y => String sep y) <$> l))%string).
  { induction l as [|y l IH]; intros x.
    - cbn [join fmap list_fmap]. by rewrite append_nil_r.
    - rewrite join_cons by done. rewrite IH. cbn [fmap list_fmap].
      by rewrite join_empty_cons, !append_String. }
  split.
  - intros (s1 & s2 & -> & H1 & (ss & Hss & ->)%lang_star_list)%lang_cat_inv.
    assert (exists l, Forall (re_lang r) l /\ ss = (fun y => String sep y) <$> l)
      as (l & Hl & ->).
    { induction Hss as [|x ss Hx _ (l & Hl & ->)]; [by exists []|].
      apply lang_cat_inv in Hx as (a & b & -> & (c & Hc & ->)%lang_cls_inv & Hb).
      cbn in Hc. rewrite orb_false_r in Hc. apply Ascii.eqb_eq in Hc as ->.
      exists (b :: l). split; [by constructor|done]. }
    exists (s1 :: l). split_and!; [done|by constructor|by rewrite Hsep].
  - intros (l & Hne & Hl & ->). destruct l as [|x l]; [done|].
    apply Forall_cons in Hl as [Hx Hl]. rewrite Hsep. constructor; [done|].
    apply lang_star_list. eexists. split; [|done].
    apply Forall_fmap. eapply Forall_impl; [exact Hl|]. intros y Hy. cbn.
    change (String sep y) with (String sep "" ++ y)%string.
    constructor; [|done]. constructor. cbn. by rewrite Ascii.eqb_refl.
Qed.

Lemma card_lang s : re_lang CARD_RE s <-> is_card s.
Proof.
  unfold CARD_RE, is_card. split.
  - intros (s1 & s2 & -> & (a & Ha & ->)%lang_cls_inv
            & (b & Hb & ->)%lang_cls_inv)%lang_cat_inv.
    by exists a, b.
  - intros (a & b & Ha & Hb & ->).
    change (String a (String b "")) with (String a "" ++ String b "")%string.
    constructor; by constructor.
Qed.

Lemma trick_lang s : re_lang TRICK_RE s <-> is_trick s.
Proof.
  unfold TRICK_RE, is_trick. rewrite (lang_separated CARD_RE " "%char).
  split; intros (l & Hne & Hl & ->); exists l; (split_and!; [done| |done]);
    (eapply Forall_impl; [exact Hl|]); intros x; apply card_lang.
Qed.

Lemma cardplay_lang s : re_lang CARDPLAY_RE s <-> is_play s.
Proof.
  unfold CARDPLAY_RE, Opt, is_play. split.
  - intros [H|H]%lang_alt_inv; [|apply lang_eps_inv in H as ->; by exists []].
    + apply (lang_separated TRICK_RE "|"%char) in H as (l & Hne & Hl & ->).
      exists l. split; [|done]. eapply Forall_impl; [exact Hl|].
      intros x. apply trick_lang.
  - intros (l & Hl & ->). destruct l as [|x l]; [apply lang_alt_r; constructor|].
    apply lang_alt_l, (lang_separated TRICK_RE "|"%char).
    exists (x :: l). split_and!; [done| |done].
    eapply Forall_impl; [exact Hl|]. intros y. apply trick_lang.
Qed.

(** X6: [is_cardplay] accepts exactly the plays, tricks separated by bars,
    each trick cards separated by single spaces, each card a suit letter
    of SHDC and a rank character of 23456789TJQKA, and the plays followed by
    one newline; the empty string is the play of no trick. *)
Theorem is_cardplay_grammar (s : string) :
  is_cardplay s = true <->
  is_play s \/ exists s', s = (s' ++ "
")%string /\ is_play s'.
Proof.
  unfold is_cardplay, match_anchored.
  rewrite !orb_true_iff, matches_lang, cardplay_lang. split.
  - intros [E|[H|H]]; [|by left|].
    { apply String.eqb_eq in E as ->. left. by exists []. }
    destruct (chomp s) as [s'|] eqn:E; [|done].
    apply chomp_spec in E. apply matches_lang, cardplay_lang in H.
    right. by exists s'.
  - intros [H|(s' & E%chomp_spec & H)]; [by right; left|].
    right; right. rewrite E. by apply matches_lang, cardplay_lang.
Qed.

(** X7: a string [is_cardplay] accepts holds no comma, in fact only suit
    letters, rank characters, spaces, bars and a final newline, so the
    comma split of a line never breaks a cardplay field. *)
Theorem is_cardplay_no_comma (s : string) :
  is_cardplay s = true ->
  split_on ","%char s = [s]
  /\ forall c, c ∈ chars s -> mem c "SHDC23456789TJQKA |
" = true.
Proof.
  intros H.
  assert (Hf : Forall (fun c => mem c "SHDC23456789TJQKA |
" = true) (alphabet CARDPLAY_RE)) by (vm_compute; repeat constructor).
  rewrite Forall_forall in Hf.
  assert (Hall : forall c, c ∈ chars s -> mem c "SHDC23456789TJQKA |
" = true).
  { unfold is_cardplay, match_anchored in H.
    apply orb_true_iff in H as [E|[H|H]%orb_true_iff].
    - apply String.eqb_eq in E as ->. by intros c ?%elem_of_nil.
    - apply matches_lang in H. intros c Hc. by eapply Hf, lang_alphabet.
    - destruct (chomp s) as [s'|] eqn:E; [|done].
      apply chomp_spec in E as ->. apply matches_lang in H. intros c.
      rewrite chars_app, elem_of_app. intros [Hc|Hc].
      + by eapply Hf, lang_alphabet.
      + cbn in Hc. apply list_elem_of_singleton in Hc as ->. reflexivity. }
  split; [|done]. apply split_on_absent. intros Hc. by apply Hall in Hc.
Qed.

End Regex.

(** * More on the image engine *)

(** ** The fuzzy matcher *)

Section FuzzyMore.










Lemma lower_append a b : Str.lower (a ++ b)%string = (Str.lower a ++ Str.lower b)%string.
Proof.
  induction a as [|c a IH]; [done|]. rewrite append_String. cbn [Str.lower].
  by rewrite IH, append_String.
Qed.



End FuzzyMore.

(** ** Background and text colour *)

Section Colours.

Variable getpixel : image -> Z -> Z -> color.



End Colours.

Lemma third_threshold (s : Z) :
  Qle_bool (inject_Z s / inject_Z 3) (inject_Z 128) = true <-> s <= 384.
Proof.
  rewrite Qle_bool_iff. unfold Qle, Qdiv, Qmult, Qinv, inject_Z. cbn.
  rewrite Pos.mul_1_l. lia.
Qed.

(** X13: the replacement text is black exactly when the first three
    channels of the background sum to more than 384, and white
    otherwise; on a colour of fewer than three channels it is white. *)
Theorem text_color_contrast (bg : color) :
  (forall r g b rest, bg = r :: g :: b :: rest ->
     text_color bg = if 384 <? r + g + b then [0; 0; 0] else [255; 255; 255])
  /\ ((length bg < 3)%nat -> text_color bg = [255; 255; 255]).
Proof.
  split.
  - intros r g b rest ->. unfold text_color.
    change (brightness (r :: g :: b :: rest))
      with (inject_Z (0 + r + g + b) / inject_Z 3)%Q.
    destruct (Qle_bool _ _) eqn:E.
    + apply third_threshold in E. by destruct (Z.ltb_spec 384 (r + g + b)); [lia|].
    + destruct (Z.ltb_spec 384 (r + g + b)); [done|].
      assert (Qle_bool (inject_Z (0 + r + g + b) / inject_Z 3) (inject_Z 128) = true)
        by (apply third_threshold; lia).
      congruence.
  - intros Hlen. unfold text_color, brightness.
    destruct (Nat.leb_spec 3 (length bg)); [lia|]. done.
Qed.

(** ** The token source *)

Section OcrMore.

Variable image_to_data : image -> string -> outcome (list token).




End OcrMore.

Section ConfidenceGate.

Variable getpixel : image -> Z -> Z -> color.
Variable image_to_data : image -> string -> outcome (list token).


End ConfidenceGate.

(** ** The passes of [redact_image], once more *)

Section PassesMore.

Variable getpixel : image -> Z -> Z -> color.

(** What one turn of a window scan does. *)
Lemma window_step_cases pass gate label data words st i :
  window_step getpixel pass gate label data words st i = st
  \/ (i ∉ st_used st)
     /\ window_matched gate (st_used st) data i words = true
     /\ exists x y x2 y2,
          span_box data i (length words) = (x, y, x2, y2)
          /\ window_step getpixel pass gate label data words st i
             = {| st_img := paint getpixel (st_img st) x y x2 y2 (x2 - x) (y2 - y) label;
                  st_used := st_used st ∪ list_to_set (seq i (length words));
                  st_count := S (st_count st);
                  st_spans := st_spans st ++
                    [{| sp_pass := pass; sp_first := i; sp_len := length words;
                        sp_repl := default "" label; sp_rect := (x, y, x2, y2) |}] |}.
Proof.
  unfold window_step. destruct (decide (i ∈ st_used st)); [by left|].
  destruct (window_matched _ _ _ _ _); [|by left]. right.
  destruct (span_box data i (length words)) as [[[x y] x2] y2].
  split_and!; [done..|]. by exists x, y, x2, y2.
Qed.

(** What one turn of the single-word pass does. *)
Lemma single_step_cases data lc_map extra_lc st i :
  single_step getpixel data lc_map extra_lc st i = st
  \/ (i ∉ st_used st)
     /\ Str.strip (t_text (tok data i)) <> ""
     /\ 0 <= t_conf (tok data i)
     /\ exists repl,
          single_match (Str.lower (Str.strip (t_text (tok data i)))) lc_map extra_lc
          = Some repl
          /\ single_step getpixel data lc_map extra_lc st i
             = {| st_img :=
                    paint getpixel (st_img st) (t_left (tok data i)) (t_top (tok data i))
                      (t_left (tok data i) + t_width (tok data i))
                      (t_top (tok data i) + t_height (tok data i))
                      (t_width (tok data i)) (t_height (tok data i))
                      (if (Str.len repl =? 0)%nat then None else Some repl);
                  st_used := st_used st ∪ {[ i ]};
                  st_count := S (st_count st);
                  st_spans := st_spans st ++
                    [{| sp_pass := 2; sp_first := i; sp_len := 1; sp_repl := repl;
                        sp_rect :=
                          (t_left (tok data i), t_top (tok data i),
                           t_left (tok data i) + t_width (tok data i),
                           t_top (tok data i) + t_height (tok data i)) |}] |}.
Proof.
  unfold single_step. destruct (decide (i ∈ st_used st)); [by left|].
  destruct (_ || _) eqn:Hgate; [by left|].
  destruct (single_match _ _ _) as [repl|] eqn:Hm; [|by left]. right.
  apply orb_false_iff in Hgate as [Hw%Nat.eqb_neq Hc%Z.ltb_ge].
  split_and!; [done| |done|by exists repl].
  intros E. by rewrite E in Hw.
Qed.

(** An invariant of every turn of the three loops holds at the end. *)
Lemma run_passes_ind (P : state -> Prop) img data name_map extra_redact :
  P {| st_img := img; st_used := ∅; st_count := 0; st_spans := [] |} ->
  (forall st name i,
     P st -> name ∈ (lc_map_of name_map).*1 ->
     (2 <= length (Str.split name))%nat ->
     (i + length (Str.split name) <= length data)%nat ->
     P (window_step getpixel 1 true (Some (dict_get name (lc_map_of name_map)))
          data (Str.split name) st i)) ->
  (forall st i,
     P st -> (i < length data)%nat ->
     P (single_step getpixel data (lc_map_of name_map)
          (extra_lc_of extra_redact) st i)) ->
  (forall st term i,
     P st -> term ∈ extra_lc_of extra_redact ->
     (2 <= length (Str.split term))%nat ->
     (i + length (Str.split term) <= length data)%nat ->
     P (window_step getpixel 3 false None data (Str.split term) st i)) ->
  P (run_passes getpixel img data name_map extra_redact).
Proof.
  intros H0 H1 H2 H3. unfold run_passes, pass3, pass2, pass1.
  apply (fold_left_invariant P).
  2:{ intros st term Hterm Hst. unfold scan_term.
      destruct (Nat.ltb_spec (length (Str.split term)) 2); [done|].
      apply (fold_left_invariant P); [done|].
      intros st' i [_ Hi]%elem_of_seq Hst'. apply H3; [done..|lia|lia]. }
  apply (fold_left_invariant P).
  2:{ intros st i [_ Hi]%elem_of_seq Hst. apply H2; [done|lia]. }
  apply (fold_left_invariant P); [done|].
  intros st name Hname%elem_of_sorted_names Hst. unfold scan_term.
  destruct (Nat.ltb_spec (length (Str.split name)) 2); [done|].
  apply (fold_left_invariant P); [done|].
  intros st' i [_ Hi]%elem_of_seq Hst'. apply H1; [done..|lia|lia].
Qed.

(** *** The image and the count *)

Lemma paint_shape img x y x2 y2 w h label :
  img_mode (paint getpixel img x y x2 y2 w h label) = img_mode img
  /\ img_width (paint getpixel img x y x2 y2 w h label) = img_width img
  /\ img_height (paint getpixel img x y x2 y2 w h label) = img_height img
  /\ img_raster (paint getpixel img x y x2 y2 w h label) = img_raster img
  /\ img_history (paint getpixel img x y x2 y2 w h label)
     = img_history img ++
       Rectangle x y x2 y2 (sample_bg_color getpixel img x y w h)
       :: match label with
          | Some repl =>
              [Text (x + 2) (y + 1) repl
                 (text_color (sample_bg_color getpixel img x y w h))
                 (Z.max 10 (h - 4))]
          | None => []
          end.
Proof.
  unfold paint. destruct label; cbn; split_and!; try done.
  by rewrite <- app_assoc.
Qed.

Lemma text_color_two bg : text_color bg = [0; 0; 0] \/ text_color bg = [255; 255; 255].
Proof. unfold text_color. destruct (Qle_bool _ _); auto. Qed.

Lemma dict_set_values k v d x :
  x ∈ (dict_set k v d).*2 -> x = v \/ x ∈ d.*2.
Proof.
  induction d as [|[k' v'] d IH]; cbn [dict_set].
  - cbn. intros ->%list_elem_of_singleton. by left.
  - destruct (String.eqb k k'); cbn [fmap list_fmap snd]; rewrite !elem_of_cons.
    + intros [->|H]; auto.
    + intros [->|H]; [auto|]. destruct (IH H); auto.
Qed.

Lemma lc_map_values name_map x : x ∈ (lc_map_of name_map).*2 -> x ∈ name_map.*2.
Proof.
  unfold lc_map_of.
  assert (Hgen : forall l d,
            x ∈ (fold_left (fun d kv => dict_set (Str.lower kv.1) kv.2 d) l d).*2 ->
            x ∈ d.*2 \/ x ∈ l.*2).
  { induction l as [|[k v] l IH]; intros d; cbn [fold_left]; [by left|].
    intros [H|H]%IH; [|right; by right].
    apply dict_set_values in H as [->|H]; [right; left|by left]. }
  intros [H|H]%Hgen; [|done]. by apply elem_of_nil in H.
Qed.

Lemma dict_get_value k d : k ∈ d.*1 -> dict_get k d ∈ d.*2.
Proof.
  unfold dict_get. intros Hk.
  destruct (find _ d) as [kv|] eqn:E.
  - apply find_some in E as [Hin _]. apply list_elem_of_fmap.
    exists kv. split; [done|]. by apply list_elem_of_In.
  - apply list_elem_of_fmap in Hk as (kv & -> & Hin).
    apply list_elem_of_In in Hin. eapply find_none in E; [|exact Hin].
    cbn in E. by rewrite String.eqb_refl in E.
Qed.

Lemma single_match_value w_lc lc_map extra_lc repl :
  single_match w_lc lc_map extra_lc = Some repl ->
  repl = "" \/ repl ∈ lc_map.*2.
Proof.
  unfold single_match. destruct (find _ lc_map) as [kv|] eqn:E.
  - intros [= <-]. right. apply find_some in E as [Hin _].
    apply list_elem_of_fmap. exists kv. split; [done|]. by apply list_elem_of_In.
  - destruct (find _ extra_lc); [|done]. intros [= <-]. by left.
Qed.

Lemma draw_ok_more name_map spans s op :
  draw_ok name_map spans op -> draw_ok name_map (spans ++ [s]) op.
Proof.
  destruct op; cbn; [done| |done].
  intros (s' & Hs' & E). exists s'. split; [|done]. apply elem_of_app. by left.
Qed.

(** Painting one more span keeps the image invariant. *)
Lemma img_inv_paint name_map img0 st s x y x2 y2 w h label used :
  img_inv name_map img0 st ->
  sp_rect s = (x, y, x2, y2) ->
  (forall repl, label = Some repl -> repl ∈ name_map.*2) ->
  img_inv name_map img0
    {| st_img := paint getpixel (st_img st) x y x2 y2 w h label;
       st_used := used;
       st_count := S (st_count st);
       st_spans := st_spans st ++ [s] |}.
Proof.
  intros [Hm Hw Hh Hr (ops & Hops & Hcount & Hok)] Hrect Hlabel.
  destruct (paint_shape (st_img st) x y x2 y2 w h label)
    as (Pm & Pw & Ph & Pr & Phist).
  split; cbn [st_img st_count st_spans]; [congruence..|].
  eexists. split_and!.
  - rewrite Phist, Hops, <- app_assoc. reflexivity.
  - rewrite filter_app, length_app, Hcount, filter_cons.
    rewrite decide_True by done. cbn [length].
    destruct label; [rewrite filter_cons, decide_False by done|];
      rewrite filter_nil; cbn [length]; lia.
  - apply Forall_app. split.
    + eapply Forall_impl; [exact Hok|]. intros op. apply draw_ok_more.
    + constructor.
      * exists s. split; [|done]. apply elem_of_app. right. left.
      * destruct label as [repl|]; [|constructor].
        constructor; [|constructor]. split; [by apply Hlabel|].
        apply text_color_two.
Qed.

Lemma img_inv_run_passes img data name_map extra_redact :
  img_inv name_map img (run_passes getpixel img data name_map extra_redact).
Proof.
  apply run_passes_ind.
  - split; cbn; try done. exists []. by rewrite app_nil_r.
  - intros st name i Hst Hname _ _.
    destruct (window_step_cases 1 true (Some (dict_get name (lc_map_of name_map)))
                data (Str.split name) st i) as [->|(_ & _ & x & y & x2 & y2 & _ & ->)];
      [done|].
    apply img_inv_paint; [done..|]. intros repl [= <-].
    by apply lc_map_values, dict_get_value.
  - intros st i Hst _.
    destruct (single_step_cases data (lc_map_of name_map)
                (extra_lc_of extra_redact) st i)
      as [->|(_ & _ & _ & repl & Hm & ->)]; [done|].
    apply img_inv_paint; [done..|]. intros r Hr.
    destruct (Nat.eqb_spec (Str.len repl) 0) as [E|E]; [done|].
    injection Hr as <-. apply single_match_value in Hm as [->|Hm]; [done|].
    by apply lc_map_values.
  - intros st term i Hst _ _ _.
    destruct (window_step_cases 3 false None data (Str.split term) st i)
      as [->|(_ & _ & x & y & x2 & y2 & _ & ->)]; [done|].
    apply img_inv_paint; [done..|]. by intros repl.
Qed.

End PassesMore.

Section Consumption.

Variable getpixel : image -> Z -> Z -> color.

(** *** The consumption set *)

Lemma use_inv_extend st s img count :
  use_inv st ->
  (forall k, k ∈ span_indices s -> k ∉ st_used st) ->
  NoDup (span_indices s) ->
  length (span_indices s) = sp_len s ->
  use_inv {| st_img := img;
             st_used := st_used st ∪ list_to_set (span_indices s);
             st_count := count;
             st_spans := st_spans st ++ [s] |}.
Proof.
  intros [Hcov Hsize] Hfresh Hnd Hlen. split; cbn [st_used st_spans].
  - intros k. rewrite elem_of_union, elem_of_list_to_set, Hcov. unfold covered.
    split.
    + intros [(s' & Hs' & Hk)|Hk].
      * exists s'. split; [|done]. apply elem_of_app. by left.
      * exists s. split; [|done]. apply elem_of_app. right. left.
    + intros (s' & [Hs'| ->%list_elem_of_singleton]%elem_of_app & Hk).
      * left. by exists s'.
      * by right.
  - rewrite sum_list_with_app. cbn [sum_list_with]. rewrite Hsize, Nat.add_0_r.
    rewrite size_union.
    + by rewrite size_list_to_set, Hlen.
    + intros k Hk Hk'. apply elem_of_list_to_set in Hk'. by apply (Hfresh k).
Qed.

Lemma use_inv_run_passes img data name_map extra_redact :
  use_inv (run_passes getpixel img data name_map extra_redact).
Proof.
  assert (Hwin : forall pass gate label words st i,
            use_inv st ->
            use_inv (window_step getpixel pass gate label data words st i)).
  { intros pass gate label words st i Hst.
    destruct (window_step_cases getpixel pass gate label data words st i)
      as [->|(_ & Hm & x & y & x2 & y2 & _ & ->)]; [done|].
    rewrite window_matched_true in Hm.
    set (s := {| sp_pass := pass; sp_first := i; sp_len := length words;
                 sp_repl := default "" label; sp_rect := (x, y, x2, y2) |}).
    change (seq i (length words)) with (span_indices s).
    apply use_inv_extend; [done| |apply NoDup_seq|apply length_seq].
    intros k [Hk1 Hk2]%elem_of_seq. cbn in Hk1, Hk2.
    destruct (lookup_lt_is_Some_2 words (k - i)) as [word Hw]; [lia|].
    destruct (Hm _ _ Hw) as (Hu & _). by replace (i + (k - i))%nat with k in Hu by lia. }
  apply run_passes_ind.
  - split; cbn.
    + intros k. split; [by intros ?%not_elem_of_empty|].
      by intros (s & ?%elem_of_nil & _).
    + by rewrite size_empty.
  - intros. by apply Hwin.
  - intros st i Hst _.
    destruct (single_step_cases getpixel data (lc_map_of name_map)
                (extra_lc_of extra_redact) st i)
      as [->|(Hu & _ & _ & repl & _ & ->)]; [done|].
    set (s := {| sp_pass := 2; sp_first := i; sp_len := 1; sp_repl := repl;
                 sp_rect := _ |}).
    replace ({[i]} : gset nat) with (list_to_set (C:=gset nat) (span_indices s))
      by (unfold span_indices; cbn; by rewrite (right_id_L ∅ (∪))).
    apply use_inv_extend; [done| |apply NoDup_seq|apply length_seq].
    intros k. unfold span_indices. cbn. by intros ->%list_elem_of_singleton.
  - intros. by apply Hwin.
Qed.

(** The consumption set only grows. *)
Lemma window_step_used_mono pass gate label data words st i :
  st_used st ⊆ st_used (window_step getpixel pass gate label data words st i).
Proof.
  destruct (window_step_cases getpixel pass gate label data words st i)
    as [->|(_ & _ & x & y & x2 & y2 & _ & ->)]; [done|]. cbn. apply union_subseteq_l.
Qed.

Lemma single_step_used_mono data lc_map extra_lc st i :
  st_used st ⊆ st_used (single_step getpixel data lc_map extra_lc st i).
Proof.
  destruct (single_step_cases getpixel data lc_map extra_lc st i)
    as [->|(_ & _ & _ & repl & _ & ->)]; [done|]. cbn. apply union_subseteq_l.
Qed.

Lemma fold_left_used_mono {B} (f : state -> B -> state) (l : list B) st :
  (forall st y, st_used st ⊆ st_used (f st y)) ->
  st_used st ⊆ st_used (fold_left f l st).
Proof.
  intros Hf. apply (fold_left_invariant (fun st' => st_used st ⊆ st_used st'));
    [done|]. intros st' y _ Hst'. etrans; [exact Hst'|apply Hf].
Qed.

Lemma scan_term_used_mono pass gate label data term st :
  st_used st ⊆ st_used (scan_term getpixel pass gate label data term st).
Proof.
  unfold scan_term. destruct (_ <? _)%nat; [done|].
  apply fold_left_used_mono. intros. apply window_step_used_mono.
Qed.

(** Once the turn of [x] has established an upward-closed fact about the
    consumption set, it holds at the end of the loop. *)
Lemma fold_left_reaches {B} (f : state -> B -> state) (R : gset nat -> Prop)
    (l : list B) (x : B) st :
  (forall st y, st_used st ⊆ st_used (f st y)) ->
  (forall U U', U ⊆ U' -> R U -> R U') ->
  x ∈ l ->
  (forall st, R (st_used (f st x))) ->
  R (st_used (fold_left f l st)).
Proof.
  intros Hf HR Hx Hstep. revert st.
  induction l as [|a l IH]; intros st; [by apply elem_of_nil in Hx|].
  cbn [fold_left]. apply elem_of_cons in Hx as [->|Hx]; [|by apply IH].
  eapply HR; [|apply Hstep]. by apply fold_left_used_mono.
Qed.

Lemma single_match_hit w_lc lc_map extra_lc term :
  term ∈ lc_map.*1 ++ extra_lc ->
  Str.has_space term = false ->
  _fuzzy_match w_lc term = true ->
  single_match w_lc lc_map extra_lc <> None.
Proof.
  intros Hterm Hs Hm. unfold single_match.
  destruct (find _ lc_map) as [kv|] eqn:E1; [done|].
  destruct (find _ extra_lc) as [t|] eqn:E2; [done|]. exfalso.
  apply elem_of_app in Hterm as [Hin|Hin].
  - apply list_elem_of_fmap in Hin as (kv & -> & Hin). apply list_elem_of_In in Hin.
    eapply find_none in E1; [|exact Hin]. cbn in E1. by rewrite Hs, Hm in E1.
  - apply list_elem_of_In in Hin. eapply find_none in E2; [|exact Hin].
    cbn in E2. by rewrite Hs, Hm in E2.
Qed.

Lemma single_step_consumes data lc_map extra_lc st i :
  single_hit data (lc_map.*1 ++ extra_lc) i ->
  i ∈ st_used (single_step getpixel data lc_map extra_lc st i).
Proof.
  intros (Hw & Hc & term & Hterm & Hs & Hm). unfold single_step.
  destruct (decide (i ∈ st_used st)); [done|].
  destruct (Nat.eqb_spec (Str.len (Str.strip (t_text (tok data i)))) 0) as [E|_];
    [by apply len_0_empty in E|].
  destruct (Z.ltb_spec (t_conf (tok data i)) 0); [lia|]. cbn [orb].
  destruct (single_match _ _ _) eqn:E.
  - cbn. apply elem_of_union_r, elem_of_singleton. done.
  - by eapply single_match_hit in E.
Qed.

Lemma window_matched_false_used gate used data idx words :
  window_matched gate used data idx words = false ->
  (forall j word, words !! j = Some word ->
     _fuzzy_match (Str.strip (t_text (tok data (idx + j)))) word = true
     /\ (gate = true -> 0 <= t_conf (tok data (idx + j)))) ->
  exists j, (j < length words)%nat /\ (idx + j)%nat ∈ used.
Proof.
  revert idx. induction words as [|nw rest IH]; intros idx; [done|].
  cbn [window_matched]. intros Hm Hhit.
  destruct (decide (idx ∈ used)) as [Hu|Hu].
  { exists 0%nat. rewrite Nat.add_0_r. cbn. split; [lia|done]. }
  destruct (Hhit 0%nat nw eq_refl) as [Hf Hc]. rewrite Nat.add_0_r in Hf, Hc.
  rewrite Hf in Hm. cbn [negb] in Hm.
  assert (gate && (t_conf (tok data idx) <? 0) = false) as Hg.
  { destruct gate; [|done]. cbn. apply Z.ltb_ge. by apply Hc. }
  rewrite Hg in Hm. destruct (IH (S idx) Hm) as (j & Hj & Hin).
  - intros j word Hw. rewrite Nat.add_succ_comm. by apply (Hhit (S j)).
  - exists (S j). rewrite <- Nat.add_succ_comm. cbn. split; [lia|done].
Qed.

Lemma window_step_consumes pass gate label data words st i :
  (1 <= length words)%nat ->
  window_hit gate data i words ->
  exists j, (j < length words)%nat
            /\ (i + j)%nat ∈ st_used (window_step getpixel pass gate label data words st i).
Proof.
  intros Hlen Hhit. unfold window_step.
  destruct (decide (i ∈ st_used st)) as [Hu|Hu].
  { exists 0%nat. rewrite Nat.add_0_r. split; [lia|done]. }
  destruct (window_matched _ _ _ _ _) eqn:Hm; cbn [negb].
  - destruct (span_box data i (length words)) as [[[x y] x2] y2]. cbn.
    exists 0%nat. rewrite Nat.add_0_r. split; [lia|].
    apply elem_of_union_r, elem_of_list_to_set, elem_of_seq. lia.
  - by apply window_matched_false_used in Hm.
Qed.

Lemma scan_term_consumes pass gate label data term st i :
  (2 <= length (Str.split term))%nat ->
  (i + length (Str.split term) <= length data)%nat ->
  window_hit gate data i (Str.split term) ->
  exists j, (j < length (Str.split term))%nat
            /\ (i + j)%nat ∈ st_used (scan_term getpixel pass gate label data term st).
Proof.
  intros Hlen Hfit Hhit. unfold scan_term.
  destruct (Nat.ltb_spec (length (Str.split term)) 2); [lia|].
  apply (fold_left_reaches _
           (fun U => exists j, (j < length (Str.split term))%nat /\ (i + j)%nat ∈ U)
           _ i).
  - intros. apply window_step_used_mono.
  - intros U U' HU (j & Hj & Hin). exists j. split; [done|]. by apply HU.
  - apply elem_of_seq. lia.
  - intros st'. apply window_step_consumes; [lia|done].
Qed.

End Consumption.

(** ** [redact_image] as a whole *)

Section RedactMore.

Variable getpixel : image -> Z -> Z -> color.
Variable image_to_data : image -> string -> outcome (list token).

Lemma redact_image_Returns_inv img name_map extra_redact out n :
  redact_image getpixel image_to_data img name_map extra_redact = Returns (out, n) ->
  exists data,
    _ocr_image image_to_data (to_rgb img) = Returns data
    /\ out = st_img (run_passes getpixel (to_rgb img) data name_map extra_redact)
    /\ n = st_count (run_passes getpixel (to_rgb img) data name_map extra_redact).
Proof.
  unfold redact_image, redact_image_state.
  destruct (_ocr_image image_to_data (to_rgb img)) as [data|e] eqn:E.
  - intros [= <- <-]. by exists data.
  - destruct e; [|done..]. by apply ocr_image_never_not_found in E.
Qed.

Lemma to_rgb_shape img :
  img_mode (to_rgb img) = "RGB"
  /\ img_width (to_rgb img) = img_width img
  /\ img_height (to_rgb img) = img_height img
  /\ img_raster (to_rgb img) = img_raster img.
Proof.
  unfold to_rgb. destruct (String.eqb_spec (img_mode img) "RGB"); by cbn.
Qed.

(** X16: whenever [redact_image] returns, the image it returns is in mode
    RGB and has the width and height of the input; the call has only added
    draw calls to it, and the count it returns is the number of rectangles
    it filled, one for each matched span. *)
Theorem redact_image_output (img : image) (name_map : dict)
    (extra_redact : option (list string)) (out : image) (n : nat) :
  redact_image getpixel image_to_data img name_map extra_redact = Returns (out, n) ->
  img_mode out = "RGB"
  /\ img_width out = img_width img
  /\ img_height out = img_height img
  /\ n = length (matched_spans getpixel image_to_data img name_map extra_redact)
  /\ exists ops,
       img_history out = img_history (to_rgb img) ++ ops
       /\ n = length (filter (fun op => is_rectangle op = true) ops).
Proof.
  intros (data & Hocr & -> & ->)%redact_image_Returns_inv.
  rewrite (matched_spans_returns _ _ _ _ _ data Hocr).
  destruct (img_inv_run_passes getpixel (to_rgb img) data name_map extra_redact)
    as [Hm Hw Hh _ (ops & Hops & Hcount & _)].
  destruct (to_rgb_shape img) as (Tm & Tw & Th & _).
  pose proof (pass_inv_run_passes getpixel (to_rgb img) data name_map extra_redact)
    as [_ _ _ Hc _].
  split_and!; [congruence..|done|]. by exists ops.
Qed.

(** X17: every draw call of [redact_image] is a rectangle over the box of a
    matched span or a text whose string is a replacement of the name map,
    in black or white: extra-redact terms draw no text, and no text read
    from the image is drawn back. *)
Theorem redact_image_draws (img : image) (name_map : dict)
    (extra_redact : option (list string)) (out : image) (n : nat) :
  redact_image getpixel image_to_data img name_map extra_redact = Returns (out, n) ->
  exists ops,
    img_history out = img_history (to_rgb img) ++ ops
    /\ Forall
         (draw_ok name_map
            (matched_spans getpixel image_to_data img name_map extra_redact))
         ops.
Proof.
  intros (data & Hocr & -> & ->)%redact_image_Returns_inv.
  rewrite (matched_spans_returns _ _ _ _ _ data Hocr).
  destruct (img_inv_run_passes getpixel (to_rgb img) data name_map extra_redact)
    as [_ _ _ _ (ops & Hops & _ & Hok)].
  by exists ops.
Qed.




(** X19: the single-word pass misses nothing.  Every token with non-blank
    text and non-negative confidence that matches a term without a space,
    of the name map or of the extra-redact list, lies in a matched span when
    [redact_image] is done. *)
Theorem single_word_hits_covered (img : image) (name_map : dict)
    (extra_redact : option (list string)) (data : list token) (i : nat) :
  _ocr_image image_to_data (to_rgb img) = Returns data ->
  (i < length data)%nat ->
  single_hit data ((lc_map_of name_map).*1 ++ extra_lc_of extra_redact) i ->
  covered i (matched_spans getpixel image_to_data img name_map extra_redact).
Proof.
  intros Hocr Hi Hhit. rewrite (matched_spans_returns _ _ _ _ _ data Hocr).
  apply (ui_covered _ (use_inv_run_passes getpixel _ data name_map extra_redact)).
  unfold run_passes, pass3.
  eapply fold_left_used_mono; [intros; apply scan_term_used_mono|].
  unfold pass2.
  apply (fold_left_reaches _ (fun U : gset nat => i ∈ U) _ i).
  - intros. apply single_step_used_mono.
  - intros U U' HU. apply HU.
  - apply elem_of_seq. lia.
  - intros st. by apply single_step_consumes.
Qed.

(** X20: no occurrence of a multi-word term is left untouched.  Where a run
    of tokens spells a term of two words or more, of the name map with all
    confidences non-negative or of the extra-redact list, at least one
    token of the run lies in a matched span when [redact_image] is done. *)
Theorem multi_word_hits_touched (img : image) (name_map : dict)
    (extra_redact : option (list string)) (data : list token)
    (term : string) (gate : bool) (i : nat) :
  _ocr_image image_to_data (to_rgb img) = Returns data ->
  term ∈ (lc_map_of name_map).*1 /\ gate = true
  \/ term ∈ extra_lc_of extra_redact /\ gate = false ->
  (2 <= length (Str.split term))%nat ->
  (i + length (Str.split term) <= length data)%nat ->
  window_hit gate data i (Str.split term) ->
  exists j,
    (j < length (Str.split term))%nat
    /\ covered (i + j)
         (matched_spans getpixel image_to_data img name_map extra_redact).
Proof.
  intros Hocr Hterm Hlen Hfit Hhit.
  rewrite (matched_spans_returns _ _ _ _ _ data Hocr).
  pose proof (ui_covered _ (use_inv_run_passes getpixel (to_rgb img) data
                              name_map extra_redact)) as Hcov.
  assert (Hup : forall U U' : gset nat,
            U ⊆ U' ->
            (exists j, (j < length (Str.split term))%nat /\ (i + j)%nat ∈ U) ->
            exists j, (j < length (Str.split term))%nat /\ (i + j)%nat ∈ U').
  { intros U U' HU (j & Hj & Hin). exists j. split; [done|]. by apply HU. }
  assert (exists j, (j < length (Str.split term))%nat
                    /\ (i + j)%nat ∈ st_used (run_passes getpixel (to_rgb img) data
                                               name_map extra_redact))
    as (j & Hj & Hin).
  { unfold run_passes. destruct Hterm as [[Hin ->]|[Hin ->]].
    - eapply Hup.
      { etrans; [|unfold pass3; apply fold_left_used_mono;
                   intros; apply scan_term_used_mono].
        unfold pass2. apply fold_left_used_mono. intros. apply single_step_used_mono. }
      unfold pass1.
      apply (fold_left_reaches _
               (fun U : gset nat =>
                  exists j, (j < length (Str.split term))%nat /\ (i + j)%nat ∈ U)
               _ term).
      + intros. apply scan_term_used_mono.
      + exact Hup.
      + by apply elem_of_sorted_names.
      + intros st. by apply scan_term_consumes.
    - unfold pass3.
      apply (fold_left_reaches _
               (fun U : gset nat =>
                  exists j, (j < length (Str.split term))%nat /\ (i + j)%nat ∈ U)
               _ term).
      + intros. apply scan_term_used_mono.
      + exact Hup.
      + done.
      + intros st. by apply scan_term_consumes. }
  exists j. split; [done|]. by apply Hcov.
Qed.

(** *** The order of the spans *)

Lemma phase_inv_mono p q st : (p <= q)%nat -> phase_inv p st -> phase_inv q st.
Proof.
  intros Hpq [Hall Hs]. split; [|done].
  eapply Forall_impl; [exact Hall|]. intros s ?. cbn in *. lia.
Qed.

Lemma phase_inv_snoc p st s img used count :
  phase_inv p st -> sp_pass s = p -> (1 <= p)%nat ->
  phase_inv p {| st_img := img; st_used := used; st_count := count;
                 st_spans := st_spans st ++ [s] |}.
Proof.
  intros [Hall Hs] Hp Hp1. split; cbn [st_spans].
  - apply Forall_app. split; [done|]. constructor; [lia|constructor].
  - apply StronglySorted_app_2; [|done|repeat constructor].
    intros a b Ha ->%list_elem_of_singleton. rewrite Forall_forall in Hall.
    specialize (Hall a Ha). lia.
Qed.

Lemma phase_inv_scan_term p gate label data term st :
  (1 <= p)%nat -> phase_inv p st ->
  phase_inv p (scan_term getpixel p gate label data term st).
Proof.
  intros Hp Hst. unfold scan_term. destruct (_ <? _)%nat; [done|].
  apply (fold_left_invariant (phase_inv p)); [done|]. intros st' i _ Hst'.
  destruct (window_step_cases getpixel p gate label data (Str.split term) st' i)
    as [->|(_ & _ & x & y & x2 & y2 & _ & ->)]; [done|].
  by apply phase_inv_snoc.
Qed.

Lemma phase_inv_run_passes img data name_map extra_redact :
  phase_inv 3 (run_passes getpixel img data name_map extra_redact).
Proof.
  unfold run_passes, pass3, pass2, pass1.
  apply (fold_left_invariant (phase_inv 3));
    [|intros st term _ Hst; apply phase_inv_scan_term; [lia|done]].
  apply (phase_inv_mono 2); [lia|].
  apply (fold_left_invariant (phase_inv 2)).
  2:{ intros st i _ Hst.
      destruct (single_step_cases getpixel data (lc_map_of name_map)
                  (extra_lc_of extra_redact) st i)
        as [->|(_ & _ & _ & repl & _ & ->)]; [done|].
      apply phase_inv_snoc; [done|done|lia]. }
  apply (phase_inv_mono 1); [lia|].
  apply (fold_left_invariant (phase_inv 1));
    [|intros st term _ Hst; apply phase_inv_scan_term; [lia|done]].
  split; cbn; constructor.
Qed.

(** X21: the spans come in the order of the passes, all multi-word name
    spans first, then the single-word spans, then the multi-word
    extra-redact spans. *)
Theorem matched_spans_pass_order (img : image) (name_map : dict)
    (extra_redact : option (list string)) :
  Forall (fun s => (1 <= sp_pass s <= 3)%nat)
    (matched_spans getpixel image_to_data img name_map extra_redact)
  /\ StronglySorted (fun a b => (sp_pass a <= sp_pass b)%nat)
       (matched_spans getpixel image_to_data img name_map extra_redact).
Proof.
  destruct (matched_spans_cases getpixel image_to_data img name_map extra_redact)
    as [->|(data & _ & ->)]; [split; constructor|].
  apply phase_inv_run_passes.
Qed.

End RedactMore.

(** * The rest of [anonymize_pdf.py] *)

(** ** [parse_name_map] *)

Section NameMapFacts.

Variable upper title : string -> string.
Variable set_order : list (string * string) -> list (string * string).

(** Listing a set yields its elements. *)
Hypothesis set_order_elements :
  forall l x, x ∈ set_order l <-> x ∈ l.

Lemma dict_set_elem k v d kv :
  kv ∈ dict_set k v d -> kv = (k, v) \/ kv ∈ d.
Proof.
  induction d as [|[k' v'] d IH]; cbn [dict_set].
  - intros ->%list_elem_of_singleton. by left.
  - destruct (String.eqb_spec k k') as [->|Hk]; rewrite !elem_of_cons.
    + intros [->|H]; auto.
    + intros [->|H]; [auto|]. destruct (IH H); auto.
Qed.

Lemma dict_set_keys k v d k' :
  k' ∈ (dict_set k v d).*1 <-> k' = k \/ k' ∈ d.*1.
Proof.
  induction d as [|[k0 v0] d IH]; cbn [dict_set].
  - cbn. rewrite list_elem_of_singleton. split; [auto|]. intros [H|H]; [done|].
    by apply elem_of_nil in H.
  - destruct (String.eqb_spec k k0) as [->|Hk]; cbn [fmap list_fmap fst];
      rewrite !elem_of_cons; [tauto|]. rewrite IH. tauto.
Qed.

Lemma dict_set_NoDup k v d : NoDup d.*1 -> NoDup (dict_set k v d).*1.
Proof.
  induction d as [|[k0 v0] d IH]; cbn [dict_set].
  - intros _. cbn. apply NoDup_singleton.
  - cbn [fmap list_fmap fst]. rewrite !NoDup_cons. intros [Hk0 Hd].
    destruct (String.eqb_spec k k0) as [->|Hk]; cbn [fmap list_fmap fst];
      rewrite !NoDup_cons; [done|].
    split; [|by apply IH]. rewrite dict_set_keys. intros [?|?]; congruence.
Qed.

Lemma parse_pair_entry mapping pair :
  parse_pair upper title set_order mapping pair =
  match name_entry pair with
  | None => mapping
  | Some (orig, repl) =>
      fold_left (fun m '(o, r) => dict_set o r m)
        (set_order (case_variants_of upper title orig repl)) mapping
  end.
Proof.
  unfold parse_pair, name_entry, _case_variants, case_variants_of.
  destruct (split_eq (Str.strip pair)) as [[orig repl]|]; [|done].
  by destruct (Str.len (Str.strip orig) =? 0)%nat.
Qed.

(** Setting the pairs of [l] one after the other. *)
Lemma dict_set_all (l : list (string * string)) (m : dict) :
  let m' := fold_left (fun m '(o, r) => dict_set o r m) l m in
  (NoDup m.*1 -> NoDup m'.*1)
  /\ (forall kv, kv ∈ m' -> kv ∈ l \/ kv ∈ m)
  /\ (forall k, k ∈ m'.*1 <-> k ∈ l.*1 \/ k ∈ m.*1).
Proof.
  revert m. induction l as [|[o r] l IH]; intros m; cbn [fold_left].
  - split_and!; [done|auto|]. intros k. cbn. split; [auto|].
    intros [H|H]; [by apply elem_of_nil in H|done].
  - destruct (IH (dict_set o r m)) as (H1 & H2 & H3). split_and!.
    + intros Hnd. by apply H1, dict_set_NoDup.
    + intros kv [H|H]%H2; [left; by right|].
      apply dict_set_elem in H as [->|H]; [left; left|by right].
    + intros k. rewrite H3, dict_set_keys. cbn [fmap list_fmap fst].
      rewrite elem_of_cons. tauto.
Qed.

Lemma parse_pairs (pieces : list string) (m : dict) :
  let m' := fold_left (parse_pair upper title set_order) pieces m in
  (NoDup m.*1 -> NoDup m'.*1)
  /\ (forall kv, kv ∈ m' ->
        kv ∈ m
        \/ exists orig repl,
             (orig, repl) ∈ omap name_entry pieces
             /\ kv ∈ case_variants_of upper title orig repl)
  /\ (forall k, k ∈ m.*1 -> k ∈ m'.*1)
  /\ (forall orig repl k,
        (orig, repl) ∈ omap name_entry pieces ->
        k ∈ (case_variants_of upper title orig repl).*1 -> k ∈ m'.*1).
Proof.
  revert m. induction pieces as [|pair pieces IH]; intros m; cbn [fold_left].
  - split_and!; [done|auto|done|]. intros orig repl k H. by apply elem_of_nil in H.
  - destruct (IH (parse_pair upper title set_order m pair)) as (H1 & H2 & H3 & H4).
    rewrite parse_pair_entry in H1, H2, H3, H4 |- *. cbn [omap list_omap].
    destruct (name_entry pair) as [[orig repl]|].
    + destruct (dict_set_all (set_order (case_variants_of upper title orig repl)) m)
        as (D1 & D2 & D3).
      split_and!.
      * intros Hnd. by apply H1, D1.
      * intros kv [H|(o & r & Hin & Hkv)]%H2.
        -- apply D2 in H as [H|H]; [|by left]. right. exists orig, repl.
           split; [left|]. by apply set_order_elements.
        -- right. exists o, r. split; [by right|done].
      * intros k Hk. apply H3, D3. by right.
      * intros o r k [[= -> ->]|Hin]%elem_of_cons Hk; [|by eapply H4].
        apply H3, D3. left. apply list_elem_of_fmap in Hk as (kv & -> & Hkv).
        apply list_elem_of_fmap. exists kv. split; [done|].
        by apply set_order_elements.
    + split_and!; [done| |done|done].
      intros kv [H|(o & r & Hin & Hkv)]%H2; [by left|]. right. by exists o, r.
Qed.

(** X22: [parse_name_map] has no duplicate key; every item it holds is one
    of the four case variants (as given, lower, upper, title) of an entry
    that has an "=" and a name before it, every key of such a variant is
    in it, and pieces without "=" or without a name add nothing, so a
    string of such pieces only gives the empty map. *)
Theorem parse_name_map_entries (map_str : string) :
  NoDup (parse_name_map upper title set_order map_str).*1
  /\ (forall kv, kv ∈ parse_name_map upper title set_order map_str ->
        exists orig repl,
          (orig, repl) ∈ name_entries map_str
          /\ kv ∈ case_variants_of upper title orig repl)
  /\ (forall orig repl k,
        (orig, repl) ∈ name_entries map_str ->
        k ∈ (case_variants_of upper title orig repl).*1 ->
        k ∈ (parse_name_map upper title set_order map_str).*1)
  /\ (name_entries map_str = [] ->
      parse_name_map upper title set_order map_str = []).
Proof.
  unfold parse_name_map, name_entries.
  destruct (parse_pairs (split_on ","%char map_str) []) as (H1 & H2 & _ & H4).
  assert (Hmem : forall kv,
            kv ∈ fold_left (parse_pair upper title set_order)
                   (split_on ","%char map_str) [] ->
            exists orig repl,
              (orig, repl) ∈ omap name_entry (split_on ","%char map_str)
              /\ kv ∈ case_variants_of upper title orig repl).
  { intros kv [H|H]%H2; [by apply elem_of_nil in H|done]. }
  split_and!; [apply H1; constructor|done|done|].
  intros E. destruct (fold_left _ _ _) as [|kv m]; [done|].
  destruct (Hmem kv) as (o & r & Hin & _); [left|].
  rewrite E in Hin. by apply elem_of_nil in Hin.
Qed.

End NameMapFacts.

(** ** [redact_text_on_page] *)

Section TextLayerFacts.

Variable Rect : Type.
Variable search_for : string -> list Rect.
Variable find_urls : list string.

Lemma annotate_inv (P : annot Rect -> Prop) needle label acc :
  (search_for needle <> [] -> forall r, P {| an_rect := r; an_text := label |}) ->
  acc.2 = length acc.1 /\ Forall P acc.1 ->
  (annotate Rect search_for needle label acc).2
  = length (annotate Rect search_for needle label acc).1
  /\ Forall P (annotate Rect search_for needle label acc).1.
Proof.
  intros HP. unfold annotate.
  destruct (search_for needle) as [|r0 l] eqn:E; [done|].
  specialize (HP ltac:(done)). revert acc. generalize (r0 :: l). clear E.
  intros rs. induction rs as [|r rs IH]; intros [annots count]; [done|].
  cbn [fold_left]. intros [Hc Hall]. apply IH. cbn in *. split.
  - rewrite length_app. cbn. lia.
  - apply Forall_app. split; [done|]. by constructor.
Qed.

Lemma annotate_nothing needle label acc :
  search_for needle = [] -> annotate Rect search_for needle label acc = acc.
Proof. intros E. unfold annotate. by rewrite E. Qed.

(** X23: the count [redact_text_on_page] returns is the number of
    annotations it added, [apply_redactions] is called exactly when there
    is one, each annotation carries a replacement of the name map, the
    empty string or "[link]", and a page on which no search finds anything
    is left alone. *)
Theorem redact_text_on_page_effect (name_map : dict) (extra_redact : list string) :
  let '(effect, count) :=
    redact_text_on_page Rect search_for find_urls name_map extra_redact in
  count = length (pe_annots effect)
  /\ (pe_applied effect = true <-> pe_annots effect <> [])
  /\ Forall (label_ok Rect name_map) (pe_annots effect)
  /\ ((forall needle, search_for needle = []) ->
      pe_annots effect = [] /\ pe_applied effect = false /\ count = 0%nat).
Proof.
  unfold redact_text_on_page.
  set (acc1 := fold_left _ (sorted_by_len_desc _) _).
  set (acc2 := fold_left _ extra_redact _).
  set (acc3 := fold_left _ find_urls _).
  assert (H3 : acc3.2 = length acc3.1 /\ Forall (label_ok Rect name_map) acc3.1).
  { apply (fold_left_invariant
             (fun acc => acc.2 = length acc.1 /\ Forall (label_ok Rect name_map) acc.1)).
    2:{ intros acc url _ Hacc. apply annotate_inv; [|done].
        intros _ r. right; right. done. }
    apply (fold_left_invariant
             (fun acc => acc.2 = length acc.1 /\ Forall (label_ok Rect name_map) acc.1)).
    2:{ intros acc text _ Hacc. destruct (_ =? _)%nat; [done|].
        apply annotate_inv; [|done]. intros _ r. right; left. done. }
    apply (fold_left_invariant
             (fun acc => acc.2 = length acc.1 /\ Forall (label_ok Rect name_map) acc.1)).
    2:{ intros acc orig Horig Hacc. apply annotate_inv; [|done].
        intros _ r. left. cbn. apply dict_get_value.
        by rewrite sorted_by_len_desc_perm in Horig. }
    done. }
  assert (H0 : (forall needle, search_for needle = []) -> acc3 = ([], 0%nat)).
  { intros Hno. subst acc3 acc2 acc1.
    apply (fold_left_invariant (fun acc => acc = ([], 0%nat))).
    2:{ intros acc url _ ->. by apply annotate_nothing. }
    apply (fold_left_invariant (fun acc => acc = ([], 0%nat))).
    2:{ intros acc text _ ->. destruct (_ =? _)%nat; [done|]. by apply annotate_nothing. }
    apply (fold_left_invariant (fun acc => acc = ([], 0%nat))); [done|].
    intros acc orig _ ->. by apply annotate_nothing. }
  destruct acc3 as [annots count]. cbn in H3. destruct H3 as [-> Hall].
  cbn [pe_annots pe_applied]. split_and!; [done| |done|].
  - destruct annots; cbn; split; done.
  - intros Hno. specialize (H0 Hno). injection H0 as ->. done.
Qed.

End TextLayerFacts.

(** ** [process_page_images] *)

Section PageImagesFacts.

Variable getpixel : image -> Z -> Z -> color.
Variable image_to_data : image -> string -> outcome (list token).
Variable load_pixmap : nat -> outcome pixmap.
Variable to_pil : pixmap -> image.

(** X24: an image is replaced on the page only if it was loaded, is at
    least 100 pixels wide and high, and [redact_image] painted at least one
    redaction on it; it is replaced by the image [redact_image] returned,
    and the total returned is the sum of these counts, so it is 0 exactly
    when nothing was replaced. *)
Theorem process_page_images_replaced (images : list nat) (name_map : dict)
    (extra_redact : option (list string)) (total : nat)
    (replaced : list (nat * image)) :
  process_page_images getpixel image_to_data load_pixmap to_pil images
    name_map extra_redact = Returns (total, replaced) ->
  Forall (replaced_ok getpixel image_to_data load_pixmap to_pil images
            name_map extra_redact) replaced
  /\ total = sum_list_with
               (fun r => image_count getpixel image_to_data load_pixmap to_pil
                           name_map extra_redact r.1) replaced
  /\ (total = 0%nat <-> replaced = []).
Proof.
  unfold process_page_images.
  set (Q := fun (acc : outcome page_state) =>
              forall total replaced, acc = Returns (total, replaced) ->
                Forall (replaced_ok getpixel image_to_data load_pixmap to_pil images
                          name_map extra_redact) replaced
                /\ total = sum_list_with
                             (fun r => image_count getpixel image_to_data load_pixmap
                                         to_pil name_map extra_redact r.1) replaced
                /\ (total = 0%nat <-> replaced = [])).
  intros H. revert total replaced H. change (Q (fold_left
    (process_image getpixel image_to_data load_pixmap to_pil name_map extra_redact)
    images (Returns (0%nat, [])))).
  apply (fold_left_invariant Q).
  - intros total replaced [= <- <-]. split_and!; [constructor|done|done].
  - intros [[t r]|e] xref Hx IH; [|done]. specialize (IH t r eq_refl).
    intros total replaced. cbn [process_image].
    destruct (load_pixmap xref) as [pix|e] eqn:El.
    2:{ destruct (is_Exception e); [|done]. intros [= <- <-]. exact IH. }
    destruct (Z.ltb_spec (pix_width pix) 100); [intros [= <- <-]; exact IH|].
    destruct (Z.ltb_spec (pix_height pix) 100); [intros [= <- <-]; exact IH|].
    cbn [orb].
    destruct (redact_image _ _ _ _ _) as [[out n]|e] eqn:Er; [|done].
    destruct (Nat.eqb_spec n 0); [intros [= <- <-]; exact IH|].
    intros [= <- <-]. destruct IH as (IH1 & IH2 & IH3). split_and!.
    + apply Forall_app. split; [done|]. constructor; [|constructor].
      split; [done|]. exists pix, n. cbn. split_and!; [done..|lia].
    + rewrite sum_list_with_app. cbn [sum_list_with fst].
      unfold image_count at 2. rewrite El, Er. lia.
    + split; [lia|]. by destruct r.
Qed.

(** X25: a page is left as it is when none of its images shows a term.  If
    every image that loads is too small or yields tokens that match no term
    in any pass, [process_page_images] replaces nothing and returns 0. *)
Theorem process_page_images_no_match (images : list nat) (name_map : dict)
    (extra_redact : option (list string)) :
  (forall xref e, xref ∈ images -> load_pixmap xref = Raises e ->
     is_Exception e = true) ->
  (forall xref pix, xref ∈ images -> load_pixmap xref = Returns pix ->
     pix_width pix < 100 \/ pix_height pix < 100
     \/ exists data,
          _ocr_image image_to_data (to_rgb (to_pil pix)) = Returns data
          /\ no_token_matches data (lc_map_of name_map) (extra_lc_of extra_redact)) ->
  process_page_images getpixel image_to_data load_pixmap to_pil images
    name_map extra_redact = Returns (0%nat, []).
Proof.
  intros Hexn Himg. unfold process_page_images.
  apply (fold_left_invariant (fun acc => acc = Returns (0%nat, []))); [done|].
  intros acc xref Hx ->. cbn [process_image].
  destruct (load_pixmap xref) as [pix|e] eqn:El.
  2:{ by rewrite (Hexn _ _ Hx El). }
  destruct (Himg _ _ Hx El) as [Hw|[Hh|(data & Hocr & Hno)]].
  - by destruct (Z.ltb_spec (pix_width pix) 100); [|lia].
  - destruct (pix_width pix <? 100); [done|].
    by destruct (Z.ltb_spec (pix_height pix) 100); [|lia].
  - destruct (_ || _); [done|].
    destruct (redact_image_unpainted getpixel image_to_data (to_pil pix)
                name_map extra_redact data Hocr Hno) as [-> _]. done.
Qed.

End PageImagesFacts.

(** * Instances *)

Lemma reassemble_row_keeps_head_witness :
  reassemble_row digits_int ["a"; "b"] = ["a"; "b"] ++ replicate 13 "".
Proof.
  apply (proj1 (reassemble_row_keeps_head digits_int ["a"; "b"])). simpl. lia.
Defined.

Lemma reassemble_row_fields_recognised_witness :
  is_cardplay (field (reassemble_row digits_int (split_on ","%char broken_line)) 12) = true
  /\ is_claim digits_int
       (field (reassemble_row digits_int (split_on ","%char broken_line)) 13) = true.
Proof.
  apply (reassemble_row_fields_recognised digits_int (split_on ","%char broken_line)).
  vm_compute. lia.
Defined.

Lemma reassemble_row_join_witness :
  join "," (reassemble_row digits_int (split_on ","%char broken_line)) = broken_line.
Proof.
  apply (proj1 (reassemble_row_join digits_int broken_line ltac:(vm_compute; lia))
           14%nat).
  - reflexivity.
  - lia.
  - vm_compute. lia.
Defined.

Lemma is_cardplay_no_comma_witness :
  split_on ","%char "S4 H3 DA CK|D2" = ["S4 H3 DA CK|D2"]
  /\ forall c, c ∈ chars "S4 H3 DA CK|D2" -> Re.mem c "SHDC23456789TJQKA |
" = true.
Proof. apply (is_cardplay_no_comma "S4 H3 DA CK|D2"). reflexivity. Defined.





Lemma text_color_contrast_witness : text_color [12; 40; 200] = [255; 255; 255].
Proof.
  apply (proj1 (text_color_contrast [12; 40; 200]) 12 40 200 []). reflexivity.
Defined.



Lemma redact_image_output_witness :
  img_mode page_output = "RGB"
  /\ img_width page_output = img_width white_image
  /\ img_height page_output = img_height white_image
  /\ 2%nat = length (matched_spans white_pixel (engine_of page_rows) white_image
                       alan_map (Some ["Page"]))
  /\ exists ops,
       img_history page_output = img_history (to_rgb white_image) ++ ops
       /\ 2%nat = length (filter (fun op => is_rectangle op = true) ops).
Proof.
  apply (redact_image_output white_pixel (engine_of page_rows) white_image
           alan_map (Some ["Page"]) page_output 2).
  vm_compute. reflexivity.
Defined.

Lemma redact_image_draws_witness :
  exists ops,
    img_history page_output = img_history (to_rgb white_image) ++ ops
    /\ Forall
         (draw_ok alan_map
            (matched_spans white_pixel (engine_of page_rows) white_image
               alan_map (Some ["Page"])))
         ops.
Proof.
  apply (redact_image_draws white_pixel (engine_of page_rows) white_image
           alan_map (Some ["Page"]) page_output 2).
  vm_compute. reflexivity.
Defined.


Lemma single_word_hits_covered_witness :
  covered 2
    (matched_spans white_pixel (engine_of page_rows) white_image alan_map
       (Some ["Page"])).
Proof.
  apply (single_word_hits_covered white_pixel (engine_of page_rows) white_image
           alan_map (Some ["Page"]) (unscale_token <$> page_rows) 2).
  - reflexivity.
  - simpl. lia.
  - split; [discriminate|]. split; [simpl; lia|].
    exists "page". split; [vm_compute; right; right; left|]. split; reflexivity.
Defined.

Lemma multi_word_hits_touched_witness :
  exists j,
    (j < length (Str.split "alan williams"))%nat
    /\ covered (0 + j)
         (matched_spans white_pixel (engine_of page_rows) white_image alan_map
            (Some ["Page"])).
Proof.
  apply (multi_word_hits_touched white_pixel (engine_of page_rows) white_image
           alan_map (Some ["Page"]) (unscale_token <$> page_rows)
           "alan williams" true 0).
  - reflexivity.
  - left. split; [vm_compute; left|reflexivity].
  - simpl. lia.
  - simpl. lia.
  - intros j word Hw. destruct j as [|[|j]].
    + injection Hw as <-. split; [reflexivity|]. intros _. simpl. lia.
    + injection Hw as <-. split; [reflexivity|]. intros _. simpl. lia.
    + discriminate Hw.
Defined.

Lemma parse_name_map_entries_witness :
  NoDup (parse_name_map ascii_upper ascii_upper remove_dups "Spw=Bob, junk ,=x").*1
  /\ (forall kv,
        kv ∈ parse_name_map ascii_upper ascii_upper remove_dups "Spw=Bob, junk ,=x" ->
        exists orig repl,
          (orig, repl) ∈ name_entries "Spw=Bob, junk ,=x"
          /\ kv ∈ case_variants_of ascii_upper ascii_upper orig repl)
  /\ (forall orig repl k,
        (orig, repl) ∈ name_entries "Spw=Bob, junk ,=x" ->
        k ∈ (case_variants_of ascii_upper ascii_upper orig repl).*1 ->
        k ∈ (parse_name_map ascii_upper ascii_upper remove_dups "Spw=Bob, junk ,=x").*1)
  /\ (name_entries "Spw=Bob, junk ,=x" = [] ->
      parse_name_map ascii_upper ascii_upper remove_dups "Spw=Bob, junk ,=x" = []).
Proof.
  apply (parse_name_map_entries ascii_upper ascii_upper remove_dups).
  intros l x. apply elem_of_remove_dups.
Defined.

Lemma process_page_images_replaced_witness :
  Forall (replaced_ok white_pixel (engine_of page_rows) load_wide white_of_pixmap
            [7%nat] alan_map (Some ["Page"])) [(7%nat, page_output)]
  /\ 2%nat = sum_list_with
               (fun r => image_count white_pixel (engine_of page_rows) load_wide
                           white_of_pixmap alan_map (Some ["Page"]) r.1)
               [(7%nat, page_output)]
  /\ (2%nat = 0%nat <-> [(7%nat, page_output)] = []).
Proof.
  apply (process_page_images_replaced white_pixel (engine_of page_rows) load_wide
           white_of_pixmap [7%nat] alan_map (Some ["Page"]) 2 [(7%nat, page_output)]).
  vm_compute. reflexivity.
Defined.

Lemma process_page_images_no_match_witness :
  process_page_images white_pixel engine_missing load_wide white_of_pixmap
    [7%nat; 8%nat] alan_map None = Returns (0%nat, []).
Proof.
  apply (process_page_images_no_match white_pixel engine_missing load_wide
           white_of_pixmap [7%nat; 8%nat] alan_map None).
  - intros xref e _ H. discriminate H.
  - intros xref pix _ _. right. right. exists []. split; [reflexivity|].
    apply no_token_matches_nil.
Defined.
